(** * multiply_const_v: the streaming "multiply by a constant vector" block

    A shallow embedding of [lib/multiply_const_v.cc] (GNU Radio extras):
    the two VOLK adapters [mult_fc32_work] and [mult_f32_work], the class
    template [multiply_const_generic<type>] with its constructor, [work],
    [_set_const] and [get_const], and the eight factory functions.

    Conventions of the embedding:
    - a C++ [int], [unsigned int] and [size_t] value is a [Z]; every
      conversion between them is written out ([Cxx.to_int], ...);
    - a buffer handed over by the scheduler (a [void*] the code casts to
      [type*]) is the [list] of the elements stored from that address on;
      reading or writing past its end is undefined behaviour;
    - a member function is a computation over the object's state that
      returns, throws, or is undefined ([outcome]). *)

From Stdlib Require Import ZArith Lia Floats.SpecFloat.
From stdpp Require Import base option list strings.

Local Open Scope Z_scope.

(** ** Machine integers *)

Module Cxx.

(** Two's-complement reduction of [z] to a signed integer of [w] bits. *)
Definition wrap (w : Z) (z : Z) : Z :=
    (z + 2 ^ (w - 1)) mod 2 ^ w - 2 ^ (w - 1).

(** Conversion to [size_t] (64 bits, unsigned). *)
Definition to_size_t (z : Z) : Z := z mod 2 ^ 64.

(** Conversion to [int] (32 bits, signed). *)
Definition to_int (z : Z) : Z := wrap 32 z.

(** Conversion to [unsigned int] (32 bits). *)
Definition to_unsigned (z : Z) : Z := z mod 2 ^ 32.

(** [a * b] and [a / b] computed in [size_t]. *)
Definition size_t_mul (a b : Z) : Z := to_size_t (to_size_t a * to_size_t b).
Definition size_t_div (a b : Z) : Z := to_size_t a / to_size_t b.

(** [std::vector::size()]. *)
Definition size {A} (v : list A) : Z := Z.of_nat (length v).

End Cxx.

(** ** Element types *)

(** [std::complex<A>]. *)
Record complex (A : Type) : Type := Complex { real : A; imag : A }.
Arguments Complex {A} _ _.
Arguments real {A} _.
Arguments imag {A} _.

(** [double] and [float] as IEEE 754 binary64 and binary32 values. *)
Definition double : Type := spec_float.
Definition float : Type := spec_float.

Module Binary64.
Definition prec : Z := 53.
Definition emax : Z := 1024.
Definition of_Z (z : Z) : double := binary_normalize prec emax z 0 false.
(** The value of a finite float, rounded towards zero to an integer. *)
Definition trunc (x : double) : Z :=
    match x with
    | S754_finite s m e => cond_Zopp s (Z.shiftl (Zpos m) e)
    | _ => 0
    end.
End Binary64.

Module Binary32.
Definition prec : Z := 24.
Definition emax : Z := 128.
Definition mul : float -> float -> float := SFmul prec emax.
Definition add : float -> float -> float := SFadd prec emax.
Definition sub : float -> float -> float := SFsub prec emax.
Definition of_Z (z : Z) : float := binary_normalize prec emax z 0 false.
(** Rounding a binary64 value to binary32 (nearest, ties to even). *)
Definition of_double (x : double) : float :=
    match x with
    | S754_finite s m e => binary_normalize prec emax (cond_Zopp s (Zpos m)) e s
    | _ => x
    end.
(** Every binary32 value is a binary64 value. *)
Definition to_double (x : float) : double :=
    match x with
    | S754_finite s m e =>
        binary_normalize Binary64.prec Binary64.emax (cond_Zopp s (Zpos m)) e s
    | _ => x
    end.
End Binary32.

(** What the class template needs of its parameter [type]: the value a
    [resize] fills with, [operator*], [sizeof], and the two conversions of
    the block's header. *)
Record num_ops (T : Type) : Type := NumOps {
  num_zero : T;
  num_mul : T -> T -> T;
  num_sizeof : Z;
  gr_complex_double_to_num : complex double -> T;
  gr_num_to_complex_double : T -> complex double
}.
Arguments num_zero {T} _.
Arguments num_mul {T} _ _ _.
Arguments num_sizeof {T} _.
Arguments gr_complex_double_to_num {T} _ _.
Arguments gr_num_to_complex_double {T} _ _.

(** Signed integers of [w] bits, [w <= 32]: the operands are promoted to
    [int], the result is narrowed back on the store. A product that leaves
    [int] is taken modulo [2^32]. *)
Definition int_mul (w : Z) (a b : Z) : Z := Cxx.wrap w (a * b).

Definition complex_int_mul (w : Z) (x y : complex Z) : complex Z :=
  Complex (Cxx.wrap w (real x * real y - imag x * imag y))
          (Cxx.wrap w (real x * imag y + imag x * real y)).

(** Modelled from the spec: the conversions [gr_complex_double_to_num] and
    [gr_num_to_complex_double] live in the block's header, which is not part
    of the source at hand. A real native type takes the real component; an
    integer native type is narrowed by truncation, and a value outside the
    range is reduced modulo the width. *)
Definition double_to_int (w : Z) (x : double) : Z := Cxx.wrap w (Binary64.trunc x).

(** [int8_t], [int16_t] and [int32_t]; the two conversions as modelled
    above. *)
Definition int_ops (w : Z) : num_ops Z :=
  {| num_zero := 0;
     num_mul := int_mul w;
     num_sizeof := w / 8;
     gr_complex_double_to_num := fun c => double_to_int w (real c);
     gr_num_to_complex_double := fun z => Complex (Binary64.of_Z z) (S754_zero false) |}.

(** [std::complex] of the three integer types; the conversions go
    component by component. *)
Definition complex_int_ops (w : Z) : num_ops (complex Z) :=
  {| num_zero := Complex 0 0;
     num_mul := complex_int_mul w;
     num_sizeof := 2 * (w / 8);
     gr_complex_double_to_num :=
       fun c => Complex (double_to_int w (real c)) (double_to_int w (imag c));
     gr_num_to_complex_double :=
       fun z => Complex (Binary64.of_Z (real z)) (Binary64.of_Z (imag z)) |}.

(** Modelled from the spec: the conversions of the header for [float]
    and [std::complex<float>], which is not part of the source at hand.
    [float] takes the real component, rounded to binary32; the way back
    is exact. *)
Definition float_ops : num_ops float :=
  {| num_zero := S754_zero false;
     num_mul := Binary32.mul;
     num_sizeof := 4;
     gr_complex_double_to_num := fun c => Binary32.of_double (real c);
     gr_num_to_complex_double :=
       fun x => Complex (Binary32.to_double x) (S754_zero false) |}.

(** Tests and sign of a [float]. The sign of a NaN is not recorded; it
    does not reach the result of the product below. *)
Definition is_nan (x : float) : bool :=
  match x with S754_nan => true | _ => false end.

Definition is_inf (x : float) : bool :=
  match x with S754_infinity _ => true | _ => false end.

Definition sign_of (x : float) : bool :=
  match x with
  | S754_zero s | S754_infinity s | S754_finite s _ _ => s
  | S754_nan => false
  end.

(** [copysign(isinf(x) ? 1 : 0, x)]. *)
Definition box (x : float) : float :=
  if is_inf x then S754_finite (sign_of x) 8388608 (-23)
  else S754_zero (sign_of x).

(** [if (isnan(x)) x = copysign(0, x)]. *)
Definition nan_to_zero (x : float) : float :=
  if is_nan x then S754_zero (sign_of x) else x.

(** The product [(a + ib) * (c + id)] of two [std::complex<float>]: the
    built-in complex multiplication that the library's specialisation
    for [float] uses. It computes the four products and the two sums in
    binary32, and when both parts come out NaN it recovers the infinities
    of an infinite operand or of an overflow. *)
Definition mulsc3 (a b c d : float) : complex float :=
  let ac := Binary32.mul a c in
  let bd := Binary32.mul b d in
  let ad := Binary32.mul a d in
  let bc := Binary32.mul b c in
  let x := Binary32.sub ac bd in
  let y := Binary32.add ad bc in
  if is_nan x && is_nan y then
    let '(a, b, c, d, recalc) :=
      if is_inf a || is_inf b
      then (box a, box b, nan_to_zero c, nan_to_zero d, true)
      else (a, b, c, d, false) in
    let '(a, b, c, d, recalc) :=
      if is_inf c || is_inf d
      then (nan_to_zero a, nan_to_zero b, box c, box d, true)
      else (a, b, c, d, recalc) in
    let '(a, b, c, d, recalc) :=
      if negb recalc && (is_inf ac || is_inf bd || is_inf ad || is_inf bc)
      then (nan_to_zero a, nan_to_zero b, nan_to_zero c, nan_to_zero d, true)
      else (a, b, c, d, recalc) in
    if recalc then
      Complex (Binary32.mul (S754_infinity false)
                 (Binary32.sub (Binary32.mul a c) (Binary32.mul b d)))
              (Binary32.mul (S754_infinity false)
                 (Binary32.add (Binary32.mul a d) (Binary32.mul b c)))
    else Complex x y
  else Complex x y.

Definition complex_float_mul (z w : complex float) : complex float :=
  mulsc3 (real z) (imag z) (real w) (imag w).

(** [std::complex<float>]; the conversions go component by component. *)
Definition complex_float_ops : num_ops (complex float) :=
  {| num_zero := Complex (S754_zero false) (S754_zero false);
     num_mul := complex_float_mul;
     num_sizeof := 8;
     gr_complex_double_to_num :=
       fun c => Complex (Binary32.of_double (real c)) (Binary32.of_double (imag c));
     gr_num_to_complex_double :=
       fun x => Complex (Binary32.to_double (real x)) (Binary32.to_double (imag x)) |}.

(** The eight native element types, one per factory. *)
Inductive native_type : Type :=
  | fc32 | f32 | sc32 | sc16 | sc8 | s32 | s16 | s8.

Definition elem (t : native_type) : Type :=
  match t with
  | fc32 => complex float
  | f32 => float
  | sc32 | sc16 | sc8 => complex Z
  | s32 | s16 | s8 => Z
  end.

Definition ops_of (t : native_type) : num_ops (elem t) :=
  match t with
  | fc32 => complex_float_ops
  | f32 => float_ops
  | sc32 => complex_int_ops 32
  | sc16 => complex_int_ops 16
  | sc8 => complex_int_ops 8
  | s32 => int_ops 32
  | s16 => int_ops 16
  | s8 => int_ops 8
  end.

(** ** Computations over an object: return, throw, undefined behaviour *)

Inductive exception : Type :=
  | invalid_argument (what : string).

Inductive outcome (S A : Type) : Type :=
  | Returned (a : A) (s : S)
  | Thrown (e : exception) (s : S)
  | Undefined.
Arguments Returned {S A} _ _.
Arguments Thrown {S A} _ _.
Arguments Undefined {S A}.

Definition M (S A : Type) : Type := S -> outcome S A.

Definition ret {S A} (a : A) : M S A := fun s => Returned a s.

Definition bind {S A B} (m : M S A) (k : A -> M S B) : M S B :=
  fun s =>
    match m s with
    | Returned a s' => k a s'
    | Thrown e s' => Thrown e s'
    | Undefined => Undefined
    end.

Definition gets {S A} (f : S -> A) : M S A := fun s => Returned (f s) s.
Definition modify {S} (f : S -> S) : M S unit := fun s => Returned tt (f s).
Definition throw {S A} (e : exception) : M S A := fun s => Thrown e s.

(** An operation on raw memory that has no defined result is undefined
    behaviour of the whole computation. *)
Definition defined {S A} (o : option A) : M S A :=
  fun s => match o with Some a => Returned a s | None => Undefined end.

Declare Scope cxx_scope.
Delimit Scope cxx_scope with cxx.
Notation "'do' x <- m ; k" := (bind m (fun x => k))
  (at level 10, x name, m at level 100, k at level 200) : cxx_scope.
Notation "m ;; k" := (bind m (fun _ => k))
  (at level 100, k at level 200, right associativity) : cxx_scope.

(** ** Buffers and loops *)

(** [p[i]] read and written through a pointer [p] to a buffer. *)
Definition load {A} (p : list A) (i : nat) : option A := p !! i.

Definition store {A} (p : list A) (i : nat) (x : A) : option (list A) :=
  if decide (i < length p)%nat then Some (<[i:=x]> p) else None.

(** [for (size_t i = i0; i < i0 + count; i++) body], the loop state being
    what the body writes. *)
Fixpoint for_loop {St} (body : nat -> St -> option St) (i count : nat) (s : St)
  : option St :=
  match count with
  | O => Some s
  | S count' =>
      match body i s with
      | Some s' => for_loop body (S i) count' s'
      | None => None
      end
  end.

(** [std::vector::resize(n)]: cut, or fill up with value-initialised
    elements. *)
Definition resize {A} (n : nat) (zero : A) (v : list A) : list A :=
  take n v ++ replicate (n - length v) zero.

(** ** The VOLK library

    The vectorised kernels and the alignment query are not code of this
    block. A kernel takes the output buffer, the input buffer, the scalar
    and the number of points (an [unsigned int]) and gives the new content
    of the output buffer, or nothing where its behaviour is undefined. *)

Class VolkLib : Type := {
  volk_32fc_s32fc_multiply_32fc_a :
    list (complex float) -> list (complex float) -> complex float -> Z ->
    option (list (complex float));
  volk_32f_s32f_multiply_32f_a :
    list float -> list float -> float -> Z -> option (list float);
  volk_get_alignment : Z
}.

(** [gr_vector_const_void_star] and [gr_vector_void_star]: one buffer per
    port. *)
Definition gr_vector_void_star (T : Type) : Type := list (list T).

(** [volk_work_type]: item count, input buffers, output buffers and the
    address of the first constant; the result is the output buffers as
    written and the returned count. *)
Definition volk_work_type (T : Type) : Type :=
  Z -> gr_vector_void_star T -> gr_vector_void_star T -> list T ->
  option (gr_vector_void_star T * Z).

(** ** The two adapters *)

Section Adapters.
Context `{VolkLib}.

(** [mult_fc32_work]. *)
Definition mult_fc32_work : volk_work_type (complex float) :=
    fun noutput_items input_items output_items val =>
      scalar ← load val 0;
      out ← output_items !! 0%nat;
      inp ← input_items !! 0%nat;
      out' ← volk_32fc_s32fc_multiply_32fc_a out inp scalar
               (Cxx.to_unsigned noutput_items);
      Some (<[0%nat := out']> output_items, noutput_items).

(** [mult_f32_work]. *)
Definition mult_f32_work : volk_work_type float :=
    fun noutput_items input_items output_items val =>
      scalar ← load val 0;
      out ← output_items !! 0%nat;
      inp ← input_items !! 0%nat;
      out' ← volk_32f_s32f_multiply_32f_a out inp scalar
               (Cxx.to_unsigned noutput_items);
      Some (<[0%nat := out']> output_items, noutput_items).

End Adapters.

(** ** The part of [gr_sync_block] the block touches *)

Record gr_io_signature : Type := {
  min_streams : Z;
  max_streams : Z;
  sizeof_stream_item : Z
}.

Definition gr_make_io_signature (mn mx item : Z) : gr_io_signature :=
  {| min_streams := mn; max_streams := mx; sizeof_stream_item := item |}.

(** [output_multiple] is [None] as long as [set_output_multiple] was not
    called. *)
Record gr_sync_block : Type := {
  name : string;
  input_signature : gr_io_signature;
  output_signature : gr_io_signature;
  output_multiple : option Z
}.

(** ** [multiply_const_generic<type>] *)

Record multiply_const_generic (T : Type) : Type := {
  block : gr_sync_block;
  _original_val : list (complex double);
  _val : list T;
  _volk_work : option (volk_work_type T)
}.
Arguments block {T} _.
Arguments _original_val {T} _.
Arguments _val {T} _.
Arguments _volk_work {T} _.

Definition with_block {T} (b : gr_sync_block) (s : multiply_const_generic T) :=
  {| block := b; _original_val := _original_val s; _val := _val s;
     _volk_work := _volk_work s |}.

Definition with_original_val {T} (v : list (complex double))
    (s : multiply_const_generic T) :=
  {| block := block s; _original_val := v; _val := _val s;
     _volk_work := _volk_work s |}.

Definition with_val {T} (v : list T) (s : multiply_const_generic T) :=
  {| block := block s; _original_val := _original_val s; _val := v;
     _volk_work := _volk_work s |}.

(** [gr_block::set_output_multiple]. The block calls it with a value that
    is at least 1. *)
Definition set_output_multiple {T} (multiple : Z) : M (multiply_const_generic T) unit :=
  modify (fun s =>
    with_block {| name := name (block s);
                  input_signature := input_signature (block s);
                  output_signature := output_signature (block s);
                  output_multiple := Some multiple |} s).

Section Generic.
Context `{VolkLib} {T : Type} (ops : num_ops T).

Local Abbreviation self := (multiply_const_generic T).

(** The body of the loop of [_set_const]:
      [gr_complex_double_to_num(val[i], _val[i])]. *)
Definition _set_const_body (val : list (complex double)) (i : nat) (s : self)
    : option self :=
    x ← load val i;
    v ← store (_val s) i (gr_complex_double_to_num ops x);
    Some (with_val v s).

(** [_set_const]. *)
Definition _set_const (val : list (complex double)) : M self unit :=
    (modify (with_original_val val);;
     do n <- gets (fun s => Cxx.size (_val s));
     if decide (Cxx.size val ≠ n) then
       throw (invalid_argument "set_const called with the wrong length")
     else
       do s <- gets id;
       do s' <- defined (for_loop (_set_const_body val) 0 (length val) s);
       modify (fun _ => s'))%cxx.

(** [get_const]. *)
Definition get_const : M self (list (complex double)) :=
    gets _original_val.

(** Modelled from the spec: [set_const] on a vector of the native type is
      declared in the block's header, which is not part of the source at
      hand. It widens every element to complex double precision and hands
      the result to [_set_const]. *)
Definition set_const (vec : list T) : M self unit :=
    _set_const (gr_num_to_complex_double ops <$> vec).

(** The two loops of [work]: the one for a single constant, and the one
      for any vector length. *)
Definition fast_path (v : T) (inp : list T) (n_nums : Z) (out : list T)
    : option (list T) :=
    for_loop (fun i out => x ← load inp i; store out i (num_mul ops x v))
             0 (Z.to_nat n_nums) out.

Definition general_case (v : list T) (inp : list T) (n_nums : Z) (out : list T)
    : option (list T) :=
    for_loop (fun i out =>
                x ← load inp i;
                c ← load v (i mod length v)%nat;
                store out i (num_mul ops x c))
             0 (Z.to_nat n_nums) out.

(** [work]. The result is the output buffers as written, and the
      returned count. *)
Definition work (noutput_items : Z) (input_items output_items : gr_vector_void_star T)
    : M self (gr_vector_void_star T * Z) :=
    (do volk_work <- gets _volk_work;
     do v <- gets _val;
     match volk_work with
     | Some f =>
         do r <- defined (f (Cxx.to_int (Cxx.size_t_mul noutput_items (Cxx.size v)))
                            input_items output_items v);
         ret (r.1, noutput_items)
     | None =>
         let n_nums := Cxx.size_t_mul noutput_items (Cxx.size v) in
         do out <- defined (output_items !! 0%nat);
         do inp <- defined (input_items !! 0%nat);
         do out' <- (if decide (Cxx.size v = 1) then
                       do val <- defined (load v 0);
                       defined (fast_path val inp n_nums out)
                     else
                       defined (general_case v inp n_nums out));
         ret (<[0%nat := out']> output_items, noutput_items)
     end)%cxx.

(** The constructor: the members before the body runs, then the body. *)
Definition constructor (vec : list T) (volk_work : option (volk_work_type T))
    : outcome self unit :=
    let item := Cxx.to_int (Cxx.size_t_mul (num_sizeof ops) (Cxx.size vec)) in
    (modify (fun s => with_val (resize (length vec) (num_zero ops) (_val s)) s);;
     set_const vec;;
     match volk_work with
     | Some _ =>
         let alignment_multiple :=
           Cxx.to_int (Cxx.size_t_div volk_get_alignment (num_sizeof ops)) in
         set_output_multiple (Z.max 1 alignment_multiple)
     | None => ret tt
     end)%cxx
      {| block := {| name := "multiply const generic";
                     input_signature := gr_make_io_signature 1 1 item;
                     output_signature := gr_make_io_signature 1 1 item;
                     output_multiple := None |};
         _original_val := [];
         _val := [];
         _volk_work := volk_work |}.

End Generic.

(** ** The factory functions *)

Section Factories.
Context `{VolkLib}.

Definition make_fc32_fc32 (vec : list (complex float)) :=
  constructor complex_float_ops vec (Some mult_fc32_work).

Definition make_f32_f32 (vec : list float) :=
  constructor float_ops vec (Some mult_f32_work).

Definition make_sc32_sc32 (vec : list (complex Z)) :=
  constructor (complex_int_ops 32) vec None.

Definition make_sc16_sc16 (vec : list (complex Z)) :=
  constructor (complex_int_ops 16) vec None.

Definition make_sc8_sc8 (vec : list (complex Z)) :=
  constructor (complex_int_ops 8) vec None.

Definition make_s32_s32 (vec : list Z) :=
  constructor (int_ops 32) vec None.

Definition make_s16_s16 (vec : list Z) :=
  constructor (int_ops 16) vec None.

Definition make_s8_s8 (vec : list Z) :=
  constructor (int_ops 8) vec None.

(** The factory of a native type. *)
Definition make (t : native_type)
  : list (elem t) -> outcome (multiply_const_generic (elem t)) unit :=
  match t with
  | fc32 => make_fc32_fc32
  | f32 => make_f32_f32
  | sc32 => make_sc32_sc32
  | sc16 => make_sc16_sc16
  | sc8 => make_sc8_sc8
  | s32 => make_s32_s32
  | s16 => make_s16_s16
  | s8 => make_s8_s8
  end.

End Factories.

(** The native types whose factory binds a VOLK adapter. *)
Definition accelerated (t : native_type) : bool :=
  match t with
  | fc32 | f32 => true
  | _ => false
  end.

(** Whether a [boost::function] holds a target. *)
Definition bound {A} (f : option A) : bool :=
  match f with Some _ => true | None => false end.

(** ** The life of an instance *)

(** The object a computation leaves behind; a thrown exception leaves the
    object to the caller that catches it. *)
Definition state_after {S A} (o : outcome S A) : option S :=
  match o with
  | Returned _ s => Some s
  | Thrown _ s => Some s
  | Undefined => None
  end.

(** The adapter the factory of a native type binds. *)
Definition adapter `{VolkLib} (t : native_type) : option (volk_work_type (elem t)) :=
  match t with
  | fc32 => Some mult_fc32_work
  | f32 => Some mult_f32_work
  | _ => None
  end.

(** The instances of native type [t] and vector length [vlen] a client can
    hold: made by the factory from a vector of [vlen] elements, then used
    through [_set_const], [get_const] and [work]. *)
Inductive reachable `{VolkLib} (t : native_type) (vlen : nat)
  : multiply_const_generic (elem t) -> Prop :=
  | reachable_make vec s :
      length vec = vlen ->
      make t vec = Returned tt s -> reachable t vlen s
  | reachable_set_const val s s' :
      reachable t vlen s ->
      state_after (_set_const (ops_of t) val s) = Some s' ->
      reachable t vlen s'
  | reachable_get_const s s' :
      reachable t vlen s ->
      state_after (get_const s) = Some s' ->
      reachable t vlen s'
  | reachable_work n input_items output_items s s' :
      reachable t vlen s ->
      state_after (work (ops_of t) n input_items output_items s) = Some s' ->
      reachable t vlen s'.

(** The invariant of the data model: the Working Constant and the
    Constant Vector both have [vlen] elements. *)
Definition length_invariant {T} (vlen : nat) (s : multiply_const_generic T) : Prop :=
  length (_val s) = vlen /\ length (_original_val s) = vlen.

(** ** A reference kernel

    The portable kernel of VOLK multiplies point by point; the vectorised
    kernels are specified to give the same output. *)

Definition volk_generic {A} (mul : A -> A -> A)
    (cVector aVector : list A) (scalar : A) (num_points : Z) : option (list A) :=
  for_loop (fun i out => x ← load aVector i; store out i (mul x scalar))
           0 (Z.to_nat num_points) cVector.

(** What a multiply-by-scalar kernel is specified to do: the first
    [num_points] elements of the output are the products, the rest of the
    output buffer is left alone. *)
Definition volk_multiply_spec {A} (mul : A -> A -> A)
    (kernel : list A -> list A -> A -> Z -> option (list A)) : Prop :=
  forall cVector aVector scalar num_points,
    0 <= num_points ->
    num_points <= Cxx.size aVector ->
    num_points <= Cxx.size cVector ->
    kernel cVector aVector scalar num_points =
    Some (((fun x => mul x scalar) <$> take (Z.to_nat num_points) aVector)
            ++ drop (Z.to_nat num_points) cVector).

(** A VOLK whose two kernels meet their specification for the products
    of the native types. *)
Definition volk_spec `{VolkLib} : Prop :=
  volk_multiply_spec (num_mul complex_float_ops) volk_32fc_s32fc_multiply_32fc_a /\
  volk_multiply_spec (num_mul float_ops) volk_32f_s32f_multiply_32f_a.

(** The portable VOLK, on a machine of 16-byte alignment. *)
Definition volk_portable : VolkLib :=
  {| volk_32fc_s32fc_multiply_32fc_a := volk_generic (num_mul complex_float_ops);
     volk_32f_s32f_multiply_32f_a := volk_generic (num_mul float_ops);
     volk_get_alignment := 16 |}.

(** The complex double [re + im i] of two integers. *)
Definition cdouble (re im : Z) : complex double :=
  Complex (Binary64.of_Z re) (Binary64.of_Z im).

(** The instance the constructor leaves behind when its body ran through. *)
Definition constructed `{VolkLib} {T} (ops : num_ops T) (vec : list T)
    (volk_work : option (volk_work_type T)) : multiply_const_generic T :=
  let item := Cxx.to_int (Cxx.size_t_mul (num_sizeof ops) (Cxx.size vec)) in
  {| block :=
       {| name := "multiply const generic";
          input_signature := gr_make_io_signature 1 1 item;
          output_signature := gr_make_io_signature 1 1 item;
          output_multiple :=
            match volk_work with
            | Some _ =>
                Some (Z.max 1 (Cxx.to_int
                        (Cxx.size_t_div volk_get_alignment (num_sizeof ops))))
            | None => None
            end |};
     _original_val := gr_num_to_complex_double ops <$> vec;
     _val := gr_complex_double_to_num ops <$> (gr_num_to_complex_double ops <$> vec);
     _volk_work := volk_work |}.

(** What a computation returned, if it returned. *)
Definition result_of {S A} (o : outcome S A) : option A :=
  match o with Returned a _ => Some a | _ => None end.

(** Whether a computation ended in an exception. *)
Definition throws {S A} (o : outcome S A) : bool :=
  match o with Thrown _ _ => true | _ => false end.

(** What a run of [count] products by the constants [v], taken round
    robin, leaves in the output buffer. *)
Definition multiplied {T} (ops : num_ops T) (v : list T) (count : nat)
    (inp out out' : list T) : Prop :=
  length out' = length out /\
  (forall k, (k < count)%nat ->
     exists x c, inp !! k = Some x /\ v !! (k mod length v)%nat = Some c /\
                 out' !! k = Some (num_mul ops x c)) /\
  (forall k, (count <= k)%nat -> out' !! k = out !! k).

(** * Properties *)

(** ** Machine integers *)

Lemma to_size_t_id z : 0 <= z < 2 ^ 64 -> Cxx.to_size_t z = z.
Proof. intros Hz. unfold Cxx.to_size_t. apply Z.mod_small. exact Hz. Qed.

Lemma to_int_id z : - 2 ^ 31 <= z < 2 ^ 31 -> Cxx.to_int z = z.
Proof.
  intros Hz. unfold Cxx.to_int, Cxx.wrap.
  rewrite Z.mod_small; lia.
Qed.

Lemma to_unsigned_to_int z : Cxx.to_unsigned (Cxx.to_int z) = z mod 2 ^ 32.
Proof.
  unfold Cxx.to_unsigned, Cxx.to_int, Cxx.wrap.
  rewrite Zminus_mod_idemp_l. f_equal. lia.
Qed.

Lemma size_t_mul_exact a b :
  0 <= a -> 0 <= b -> a * b < 2 ^ 64 -> Cxx.size_t_mul a b = a * b.
Proof.
  intros Ha Hb Hab. unfold Cxx.size_t_mul.
  destruct (Z.eq_dec b 0) as [-> | Hb0].
  { unfold Cxx.to_size_t. rewrite Zmod_0_l, !Z.mul_0_r. reflexivity. }
  destruct (Z.eq_dec a 0) as [-> | Ha0].
  { unfold Cxx.to_size_t. rewrite Zmod_0_l, !Z.mul_0_l. reflexivity. }
  rewrite (to_size_t_id a) by nia.
  rewrite (to_size_t_id b) by nia.
  apply to_size_t_id. nia.
Qed.

Lemma size_nonneg {A} (v : list A) : 0 <= Cxx.size v.
Proof. unfold Cxx.size. lia. Qed.

(** ** Loops that fill a buffer *)

Lemma for_loop_ext {St} (f g : nat -> St -> option St) i count s :
  (forall k s', (i <= k < i + count)%nat -> f k s' = g k s') ->
  for_loop f i count s = for_loop g i count s.
Proof.
  revert i s. induction count as [| count IH]; intros i s Hfg; simpl.
  - reflexivity.
  - rewrite Hfg by lia. destruct (g i s) as [s' |]; [| reflexivity].
    apply IH. intros k s'' Hk. apply Hfg. lia.
Qed.

Lemma store_Some {A} (p : list A) i x :
  (i < length p)%nat -> store p i x = Some (<[i:=x]> p).
Proof. intros Hi. unfold store. case_decide; [reflexivity | lia]. Qed.

(** A loop whose [k]-th round stores [ys !! k] at position [i + k] writes
    the run [ys] into the buffer and leaves the rest alone. *)
Lemma for_loop_writes {A} (body : nat -> list A -> option (list A)) (ys : list A) :
  forall i out,
    (forall k y o, ys !! k = Some y -> body (i + k)%nat o = store o (i + k) y) ->
    (i + length ys <= length out)%nat ->
    for_loop body i (length ys) out =
    Some (take i out ++ ys ++ drop (i + length ys) out).
Proof.
  induction ys as [| y ys IH]; intros i out Hbody Hlen; simpl.
  - rewrite Nat.add_0_r, take_drop. reflexivity.
  - simpl in Hlen.
    pose proof (Hbody 0%nat y out eq_refl) as H0. rewrite Nat.add_0_r in H0.
    rewrite H0, store_Some by lia.
    rewrite IH.
    + f_equal.
      rewrite (take_S_r _ _ y) by (apply list_lookup_insert_eq; lia).
      rewrite take_insert_ge by lia.
      rewrite drop_insert_lt by lia.
      rewrite <- app_assoc. simpl.
      replace (S (i + length ys)) with (i + S (length ys))%nat by lia.
      reflexivity.
    + intros k y' o Hk.
      replace (S i + k)%nat with (i + S k)%nat by lia.
      apply Hbody. exact Hk.
    + rewrite length_insert. lia.
Qed.

(** The values an index function gives on [0 .. n), as a list. *)
Lemma tabulate_defined {A} (g : nat -> option A) n :
  (forall k, (k < n)%nat -> is_Some (g k)) ->
  exists ys, length ys = n /\ forall k, (k < n)%nat -> ys !! k = g k.
Proof.
  induction n as [| n IH]; intros Hg.
  - exists []. split; [reflexivity | intros k Hk; lia].
  - destruct IH as (ys & Hlen & Hys); [intros k Hk; apply Hg; lia |].
    destruct (Hg n ltac:(lia)) as [y Hy].
    exists (ys ++ [y]). split.
    + rewrite length_app. simpl. lia.
    + intros k Hk. destruct (decide (k = n)) as [-> | Hne].
      * rewrite lookup_app_r by lia.
        replace (n - length ys)%nat with 0%nat by lia. simpl. congruence.
      * rewrite lookup_app_l by lia. apply Hys. lia.
Qed.

(** ** The constant store *)

Section ConstantStore.
Context `{VolkLib} {T : Type} (ops : num_ops T).

Local Abbreviation self := (multiply_const_generic T).

Lemma with_val_id (s : self) : with_val (_val s) s = s.
Proof. destruct s; reflexivity. Qed.

(** The loop of [_set_const] changes the object through [_val] only. *)
Lemma _set_const_loop (val : list (complex double)) count :
  forall i (s : self),
    for_loop (_set_const_body ops val) i count s =
    (fun v => with_val v s) <$>
      for_loop (fun i v => x ← load val i;
                           store v i (gr_complex_double_to_num ops x))
               i count (_val s).
Proof.
  induction count as [| count IH]; intros i s; simpl.
  - rewrite with_val_id. reflexivity.
  - unfold _set_const_body at 1.
    destruct (load val i) as [x |]; simpl; [| reflexivity].
    destruct (store (_val s) i (gr_complex_double_to_num ops x)) as [v |];
      simpl; [| reflexivity].
    rewrite IH. simpl.
    destruct (for_loop _ (S i) count v); reflexivity.
Qed.

(** A vector of the right length replaces both constants. *)
Lemma _set_const_ok (val : list (complex double)) (s : self) :
  length val = length (_val s) ->
  _set_const ops val s =
  Returned tt (with_val (gr_complex_double_to_num ops <$> val)
                        (with_original_val val s)).
Proof.
  intros Hlen. unfold _set_const, bind, modify, gets, throw, defined, Cxx.size.
  simpl. case_decide as Hd; [lia |].
  rewrite _set_const_loop. simpl.
  set (ys := gr_complex_double_to_num ops <$> val).
  replace (length val) with (length ys) by apply length_fmap.
  rewrite for_loop_writes.
  - simpl. rewrite drop_ge, app_nil_r; [reflexivity |].
    unfold ys. rewrite length_fmap. lia.
  - intros k y o Hk. simpl. unfold ys in Hk.
    rewrite list_lookup_fmap in Hk. unfold load.
    destruct (val !! k) as [x |]; simpl in *; [| discriminate].
    congruence.
  - unfold ys. rewrite length_fmap. lia.
Qed.

(** A vector of another length makes [_set_const] throw, after the
    Constant Vector was overwritten. *)
Lemma _set_const_wrong_length (val : list (complex double)) (s : self) :
  length val ≠ length (_val s) ->
  _set_const ops val s =
  Thrown (invalid_argument "set_const called with the wrong length")
         (with_original_val val s).
Proof.
  intros Hlen. unfold _set_const, bind, modify, gets, throw, Cxx.size.
  simpl. case_decide as Hd; [reflexivity |].
  exfalso. apply Hlen. lia.
Qed.

(** Whatever [_set_const] does, the Working Constant keeps its length and
    the bound kernel stays. *)
Lemma _set_const_keeps (val : list (complex double)) (s s' : self) :
  state_after (_set_const ops val s) = Some s' ->
  length (_val s') = length (_val s) /\ _volk_work s' = _volk_work s /\
  block s' = block s.
Proof.
  destruct (decide (length val = length (_val s))) as [Heq | Hne].
  - rewrite _set_const_ok by exact Heq. simpl. intros [= <-]. simpl.
    rewrite length_fmap. auto.
  - rewrite _set_const_wrong_length by exact Hne. simpl. intros [= <-].
    simpl. auto.
Qed.

Lemma resize_empty (n : nat) (z : T) : resize n z [] = replicate n z.
Proof.
  unfold resize. rewrite take_nil. simpl. rewrite Nat.sub_0_r. reflexivity.
Qed.

(** The constructor always gives an instance. *)
Lemma constructor_ok (vec : list T) (volk_work : option (volk_work_type T)) :
  constructor ops vec volk_work = Returned tt (constructed ops vec volk_work).
Proof.
  unfold constructor, constructed, bind at 1, modify at 1. simpl.
  unfold bind at 1, set_const. rewrite _set_const_ok.
  - destruct volk_work; reflexivity.
  - simpl. rewrite resize_empty, length_replicate, length_fmap. reflexivity.
Qed.

End ConstantStore.

(** ** The scalar kernel *)

Section ScalarKernel.
Context {T : Type} (ops : num_ops T).

Lemma fast_path_general (v : T) (inp : list T) (n_nums : Z) (out : list T) :
  fast_path ops v inp n_nums out = general_case ops [v] inp n_nums out.
Proof.
  unfold fast_path, general_case. apply for_loop_ext.
  intros k o _. change (length [v]) with 1%nat. rewrite Nat.mod_1_r.
  destruct (load inp k); reflexivity.
Qed.

Lemma general_case_multiplied (v inp : list T) (n_nums : Z) (out : list T) :
  0 <= n_nums ->
  n_nums <= Cxx.size inp ->
  n_nums <= Cxx.size out ->
  (0 < n_nums -> v ≠ []) ->
  exists out',
    general_case ops v inp n_nums out = Some out' /\
    multiplied ops v (Z.to_nat n_nums) inp out out'.
Proof.
  unfold Cxx.size. intros Hn Hinp Hout Hv.
  set (g := fun k : nat =>
              x ← inp !! k; c ← v !! (k mod length v)%nat;
              Some (num_mul ops x c)).
  destruct (tabulate_defined g (Z.to_nat n_nums)) as (ys & Hlen & Hys).
  { intros k Hk. unfold g.
    destruct (lookup_lt_is_Some_2 inp k ltac:(lia)) as [x ->]. simpl.
    assert (Hv' : (0 < length v)%nat).
    { destruct v; [exfalso; apply Hv; [lia | reflexivity] | simpl; lia]. }
    destruct (lookup_lt_is_Some_2 v (k mod length v)%nat) as [c ->].
    - apply Nat.mod_upper_bound. lia.
    - simpl. eauto. }
  exists (take 0 out ++ ys ++ drop (0 + length ys) out). split.
  - unfold general_case. rewrite <- Hlen. apply for_loop_writes.
    + intros k y o Hk. simpl.
      assert (Hlt : (k < Z.to_nat n_nums)%nat).
      { rewrite <- Hlen. eapply lookup_lt_Some. exact Hk. }
      rewrite (Hys k Hlt) in Hk. unfold g in Hk. unfold load.
      destruct (inp !! k) as [x |]; simpl in *; [| discriminate].
      destruct (v !! (k mod length v)%nat) as [c |]; simpl in *; [| discriminate].
      congruence.
    + lia.
  - simpl. rewrite Hlen. repeat split.
    + rewrite length_app, length_drop. lia.
    + intros k Hk. rewrite lookup_app_l by lia.
      rewrite (Hys k Hk). unfold g.
      destruct (inp !! k) as [x |] eqn:Hx; simpl.
      * destruct (v !! (k mod length v)%nat) as [c |] eqn:Hc; simpl.
        -- exists x, c. auto.
        -- exfalso.
           assert (Hs : is_Some (ys !! k)) by (apply lookup_lt_is_Some_2; lia).
           rewrite (Hys k Hk) in Hs. unfold g in Hs. rewrite Hx in Hs. simpl in Hs.
           rewrite Hc in Hs. simpl in Hs. destruct Hs; discriminate.
      * exfalso.
        assert (Hs : is_Some (ys !! k)) by (apply lookup_lt_is_Some_2; lia).
        rewrite (Hys k Hk) in Hs. unfold g in Hs. rewrite Hx in Hs.
        destruct Hs; discriminate.
    + intros k Hk. rewrite lookup_app_r by lia.
      rewrite lookup_drop. f_equal. lia.
Qed.

(** [work], no adapter bound. *)
Lemma work_scalar (s : multiply_const_generic T) (n : Z) (inp out : list T) :
  _volk_work s = None ->
  0 <= n ->
  n * Cxx.size (_val s) <= Cxx.size inp ->
  n * Cxx.size (_val s) <= Cxx.size out ->
  n * Cxx.size (_val s) < 2 ^ 64 ->
  exists out',
    work ops n [inp] [out] s = Returned ([out'], n) s /\
    multiplied ops (_val s) (Z.to_nat (n * Cxx.size (_val s))) inp out out'.
Proof.
  intros Hw Hn Hinp Hout Hmax.
  pose proof (size_nonneg (_val s)) as Hsz.
  assert (Hmul : Cxx.size_t_mul n (Cxx.size (_val s)) = n * Cxx.size (_val s)).
  { apply size_t_mul_exact; lia. }
  destruct (general_case_multiplied (_val s) inp (n * Cxx.size (_val s)) out)
    as (out' & Hrun & Hpost); try lia.
  { intros Hpos Hnil. rewrite Hnil in Hpos. unfold Cxx.size in Hpos.
    simpl in Hpos. lia. }
  exists out'. split; [| exact Hpost].
  unfold work, bind, gets, defined, ret. rewrite Hw. simpl. rewrite Hmul.
  case_decide as Hone.
  - destruct (_val s) as [| v [| ? ?]] eqn:Hv;
      unfold Cxx.size in Hone; simpl in Hone; try lia.
    simpl. rewrite fast_path_general, Hrun. reflexivity.
  - rewrite Hrun. reflexivity.
Qed.

(** [work] returns with the object as it found it, or its behaviour is
    undefined; it throws nothing. *)
Lemma work_outcome (s : multiply_const_generic T) (n : Z)
    (input_items output_items : gr_vector_void_star T) :
  work ops n input_items output_items s = Undefined \/
  exists outs, work ops n input_items output_items s = Returned (outs, n) s.
Proof.
  unfold work, bind, gets, defined, ret.
  destruct (_volk_work s) as [f |].
  - destruct (f _ input_items output_items (_val s)) as [r |]; eauto.
  - destruct (output_items !! 0%nat); simpl; [| auto].
    destruct (input_items !! 0%nat); simpl; [| auto].
    case_decide.
    + destruct (load (_val s) 0); simpl; [| auto].
      destruct (fast_path _ _ _ _); eauto.
    + destruct (general_case _ _ _ _); eauto.
Qed.

End ScalarKernel.

(** ** The accelerated path *)

Lemma volk_generic_spec {A} (mul : A -> A -> A) :
  volk_multiply_spec mul (volk_generic mul).
Proof.
  intros cVector aVector scalar n Hn Ha Hc. unfold Cxx.size in *.
  unfold volk_generic.
  set (ys := (fun x => mul x scalar) <$> take (Z.to_nat n) aVector).
  assert (Hlen : length ys = Z.to_nat n).
  { unfold ys. rewrite length_fmap, length_take. lia. }
  rewrite <- Hlen at 1. rewrite for_loop_writes.
  - simpl. rewrite Hlen. reflexivity.
  - intros k y o Hk. simpl. unfold ys in Hk.
    rewrite list_lookup_fmap in Hk.
    assert (Hlt : (k < Z.to_nat n)%nat).
    { rewrite <- Hlen. apply lookup_lt_is_Some_1. unfold ys.
      rewrite list_lookup_fmap. destruct (take _ _ !! k); [eauto | discriminate]. }
    rewrite lookup_take_lt in Hk by exact Hlt. unfold load.
    destruct (aVector !! k) as [x |]; simpl in *; [| discriminate].
    congruence.
  - lia.
Qed.

Lemma volk_portable_spec : @volk_spec volk_portable.
Proof. split; apply volk_generic_spec. Qed.

(** The output of a multiply-by-scalar run, read point by point. *)
Lemma broadcast_lookup {A} (mul : A -> A -> A) (scalar : A) (m : nat)
    (inp out : list A) :
  (m <= length inp)%nat -> (m <= length out)%nat ->
  let out' := ((fun x => mul x scalar) <$> take m inp) ++ drop m out in
  length out' = length out /\
  (forall k, (k < m)%nat ->
     exists x, inp !! k = Some x /\ out' !! k = Some (mul x scalar)) /\
  (forall k, (m <= k)%nat -> out' !! k = out !! k).
Proof.
  intros Hinp Hout out'. unfold out'.
  assert (Hlen : length ((fun x => mul x scalar) <$> take m inp) = m).
  { rewrite length_fmap, length_take. lia. }
  repeat split.
  - rewrite length_app, Hlen, length_drop. lia.
  - intros k Hk. destruct (lookup_lt_is_Some_2 inp k ltac:(lia)) as [x Hx].
    exists x. split; [exact Hx |].
    rewrite lookup_app_l by lia.
    rewrite list_lookup_fmap, lookup_take_lt, Hx by exact Hk. reflexivity.
  - intros k Hk. rewrite lookup_app_r by lia.
    rewrite Hlen, lookup_drop. f_equal. lia.
Qed.

Section Accelerated.
Context `{VolkLib}.

(** An adapter reads the constant at position 0 only, and hands the
    buffers of port 0 to its kernel. *)
Lemma adapter_run (t : native_type) (f : volk_work_type (elem t))
    (noutput_items : Z) (inp out : list (elem t)) (v0 : elem t)
    (rest : list (elem t)) :
  volk_spec ->
  adapter t = Some f ->
  Cxx.to_unsigned noutput_items <= Cxx.size inp ->
  Cxx.to_unsigned noutput_items <= Cxx.size out ->
  f noutput_items [inp] [out] (v0 :: rest) =
  Some ([((fun x => num_mul (ops_of t) x v0) <$>
            take (Z.to_nat (Cxx.to_unsigned noutput_items)) inp)
          ++ drop (Z.to_nat (Cxx.to_unsigned noutput_items)) out],
        noutput_items).
Proof.
  intros [Hfc Hf] Hbound Hinp Hout.
  assert (Hpos : 0 <= Cxx.to_unsigned noutput_items).
  { unfold Cxx.to_unsigned. apply Z.mod_pos_bound. lia. }
  destruct t; simpl in Hbound; try discriminate;
    injection Hbound as <-.
  - unfold mult_fc32_work. simpl. rewrite Hfc by assumption. reflexivity.
  - unfold mult_f32_work. simpl. rewrite Hf by assumption. reflexivity.
Qed.

(** [work], an adapter bound: the kernel runs over the flattened run of
    [noutput_items * vlen] elements, reduced to an [unsigned int]. *)
Lemma work_accelerated (t : native_type) (s : multiply_const_generic (elem t))
    (n : Z) (inp out : list (elem t)) (v0 : elem t) (rest : list (elem t)) :
  volk_spec ->
  accelerated t = true ->
  _volk_work s = adapter t ->
  _val s = v0 :: rest ->
  0 <= n ->
  n * Cxx.size (_val s) <= Cxx.size inp ->
  n * Cxx.size (_val s) <= Cxx.size out ->
  n * Cxx.size (_val s) < 2 ^ 64 ->
  let m := Z.to_nat ((n * Cxx.size (_val s)) mod 2 ^ 32) in
  work (ops_of t) n [inp] [out] s =
  Returned ([((fun x => num_mul (ops_of t) x v0) <$> take m inp) ++ drop m out], n) s.
Proof.
  intros Hspec Hacc Hw Hv Hn Hinp Hout Hmax m.
  pose proof (size_nonneg (_val s)) as Hsz.
  assert (Hmul : Cxx.size_t_mul n (Cxx.size (_val s)) = n * Cxx.size (_val s)).
  { apply size_t_mul_exact; lia. }
  assert (Hm : 0 <= (n * Cxx.size (_val s)) mod 2 ^ 32 <= n * Cxx.size (_val s)).
  { split; [apply Z.mod_pos_bound; lia | apply Z.mod_le; lia]. }
  destruct (adapter t) as [f |] eqn:Hf.
  2:{ destruct t; simpl in *; discriminate. }
  unfold work, bind, gets, defined, ret. rewrite Hw, Hmul.
  rewrite Hv at 2.
  rewrite (adapter_run t f _ inp out v0 rest Hspec Hf);
    rewrite to_unsigned_to_int; try lia.
  reflexivity.
Qed.

End Accelerated.

(** ** Invariants of an instance *)

Section Instances.
Context `{VolkLib}.

Lemma make_constructor (t : native_type) (vec : list (elem t)) :
  make t vec = constructor (ops_of t) vec (adapter t).
Proof. destruct t; reflexivity. Qed.

Lemma bound_adapter (t : native_type) : bound (adapter t) = accelerated t.
Proof. destruct t; reflexivity. Qed.

(** The kernel selection, [vlen] and what was declared to the scheduler
    are fixed by the factory. *)
Lemma reachable_fixed (t : native_type) (vlen : nat)
    (s : multiply_const_generic (elem t)) :
  reachable t vlen s ->
  _volk_work s = adapter t /\ length (_val s) = vlen.
Proof.
  induction 1 as [vec s Hlen Hmake | val s s' _ IH Hstep | s s' _ IH Hstep
                  | n ii oo s s' _ IH Hstep].
  - rewrite make_constructor, constructor_ok in Hmake.
    injection Hmake as <-. simpl. rewrite !length_fmap. auto.
  - destruct (_set_const_keeps _ _ _ _ Hstep) as (Hl & Hw & _).
    rewrite Hl, Hw. exact IH.
  - simpl in Hstep. injection Hstep as <-. exact IH.
  - destruct (work_outcome (ops_of t) s n ii oo) as [Hu | [outs Hr]];
      rewrite ?Hu, ?Hr in Hstep; simpl in Hstep; [discriminate |].
    injection Hstep as <-. exact IH.
Qed.

End Instances.

Lemma alignment_multiple_exact (a sz : Z) :
  0 <= a < 2 ^ 31 -> 0 < sz < 2 ^ 64 ->
  Cxx.to_int (Cxx.size_t_div a sz) = a / sz.
Proof.
  intros Ha Hsz. unfold Cxx.size_t_div.
  rewrite !to_size_t_id by lia.
  apply to_int_id. split.
  - pose proof (Z.div_pos a sz ltac:(lia) ltac:(lia)). lia.
  - apply Z.le_lt_trans with a; [| lia].
    apply Z.div_le_upper_bound; nia.
Qed.

Lemma sizeof_range (t : native_type) : 0 < num_sizeof (ops_of t) < 2 ^ 64.
Proof. destruct t; vm_compute; split; reflexivity. Qed.

(** ** The scenarios of the specification, on the portable VOLK *)

(** float32, constant [2.0], input [1, 2, 3, 4]. *)
Example scenario_float32 :
  let f := Binary32.of_Z in
  let s := @constructed volk_portable _ (ops_of f32) [f 2]
             (@adapter volk_portable f32) in
  result_of (work (ops_of f32) 4 [[f 1; f 2; f 3; f 4]] [[f 0; f 0; f 0; f 0]] s)
  = Some ([[f 2; f 4; f 6; f 8]], 4).
Proof. vm_compute. reflexivity. Qed.

(** int16, constant [3, 5], input [1, 1, 2, 2, 3, 3]. *)
Example scenario_int16 :
  let s := @constructed volk_portable _ (ops_of s16) [3; 5] None in
  result_of (work (ops_of s16) 3 [[1; 1; 2; 2; 3; 3]] [[0; 0; 0; 0; 0; 0]] s)
  = Some ([[3; 5; 6; 10; 9; 15]], 3).
Proof. vm_compute. reflexivity. Qed.

(** complex-float32, constant [i], input [1, i]. *)
Example scenario_complex_float32 :
  let c := fun a b => Complex (Binary32.of_Z a) (Binary32.of_Z b) in
  let s := @constructed volk_portable _ (ops_of fc32) [c 0 1]
             (@adapter volk_portable fc32) in
  result_of (work (ops_of fc32) 2 [[c 1 0; c 0 1]] [[c 0 0; c 0 0]] s)
  = Some ([[c 0 1; c (-1) 0]], 2).
Proof. vm_compute. reflexivity. Qed.

(** complex-float32 with an infinite operand: the product recovers the
    infinity that the plain formula loses. *)
Example scenario_complex_float32_infinite :
  let inf := S754_infinity false in
  let c := fun a b => Complex (Binary32.of_Z a) (Binary32.of_Z b) in
  let s := @constructed volk_portable _ (ops_of fc32) [c 1 0]
             (@adapter volk_portable fc32) in
  result_of (work (ops_of fc32) 1 [[Complex inf inf]] [[c 0 0]] s)
  = Some ([[Complex inf inf]], 1).
Proof. vm_compute. reflexivity. Qed.

(** int8: the product is narrowed to eight bits on the store. *)
Example scenario_int8_narrowing :
  let s := @constructed volk_portable _ (ops_of s8) [100] None in
  result_of (work (ops_of s8) 2 [[2; -3]] [[0; 0]] s) = Some ([[-56; -44]], 2).
Proof. vm_compute. reflexivity. Qed.

(** An output buffer shorter than the run: undefined behaviour. *)
Example scenario_short_buffer :
  let s := @constructed volk_portable _ (ops_of s16) [3; 5] None in
  work (ops_of s16) 3 [[1; 1; 2; 2; 3; 3]] [[0; 0; 0; 0]] s = Undefined.
Proof. reflexivity. Qed.

(** * The claims *)

(** ** Constant store *)

(** C1 (the code departs from the claim). On an int16 instance made from
    [3; 5], [_set_const] with three values throws the invalid-argument
    exception and leaves the Working Constant as it was, but it has
    already overwritten the Constant Vector: [get_const] then returns the
    rejected three values, not the two it returned before the call. *)
Theorem set_const_wrong_length_not_atomic `{VolkLib} :
  let before := [cdouble 3 0; cdouble 5 0] in
  let rejected := [cdouble 1 0; cdouble 2 0; cdouble 3 0] in
  exists s s',
    make s16 [3; 5] = Returned tt s /\
    get_const s = Returned before s /\
    _set_const (ops_of s16) rejected s =
      Thrown (invalid_argument "set_const called with the wrong length") s' /\
    _val s' = _val s /\
    get_const s' = Returned rejected s' /\
    get_const s' <> Returned before s'.
Proof.
  intros before rejected.
  exists (constructed (ops_of s16) [3; 5] None).
  exists (with_original_val rejected (constructed (ops_of s16) [3; 5] None)).
  split; [rewrite make_constructor; apply constructor_ok |].
  split; [reflexivity |].
  split; [apply _set_const_wrong_length; simpl; lia |].
  split; [reflexivity |].
  split; [reflexivity |].
  unfold get_const, gets. simpl. intros Heq.
  apply (f_equal (fun o => match o with
                           | Returned a _ => length a
                           | _ => 0%nat
                           end)) in Heq.
  simpl in Heq. lia.
Qed.

(** C2 (the code departs from the claim). The factory establishes the
    length invariant on an int16 instance made from [3; 5]; after a
    [_set_const] with three values, which fails the length check, the
    instance is still in use and its Constant Vector has three elements
    while its Working Constant has two. *)
Theorem length_invariant_broken_by_failed_set_const `{VolkLib} :
  let rejected := [cdouble 1 0; cdouble 2 0; cdouble 3 0] in
  exists s s',
    make s16 [3; 5] = Returned tt s /\
    length_invariant 2 s /\
    throws (_set_const (ops_of s16) rejected s) = true /\
    state_after (_set_const (ops_of s16) rejected s) = Some s' /\
    reachable s16 2 s' /\
    length (_val s') = 2%nat /\
    length (_original_val s') = 3%nat /\
    ~ length_invariant 2 s'.
Proof.
  intros rejected.
  set (s := constructed (ops_of s16) [3; 5] None).
  assert (Hmake : make s16 [3; 5] = Returned tt s).
  { rewrite make_constructor. apply constructor_ok. }
  assert (Hset : _set_const (ops_of s16) rejected s =
                 Thrown (invalid_argument "set_const called with the wrong length")
                        (with_original_val rejected s)).
  { apply _set_const_wrong_length. simpl. lia. }
  exists s, (with_original_val rejected s).
  rewrite Hset. simpl.
  repeat split; try reflexivity.
  - apply (reachable_set_const s16 2 rejected s).
    + apply (reachable_make s16 2 [3; 5]); [reflexivity | exact Hmake].
    + rewrite Hset. reflexivity.
  - intros [_ Hlen]. simpl in Hlen. lia.
Qed.

(** The parts of the length invariant that do hold: the factory
    establishes it, and a [_set_const] that returns keeps it. *)
Lemma length_invariant_constructed `{VolkLib} (t : native_type) (vec : list (elem t)) :
  exists s, make t vec = Returned tt s /\ length_invariant (length vec) s.
Proof.
  exists (constructed (ops_of t) vec (adapter t)). split.
  - rewrite make_constructor. apply constructor_ok.
  - split; simpl; rewrite !length_fmap; reflexivity.
Qed.

Lemma length_invariant_set_const_returns {T} (ops : num_ops T)
    (vlen : nat) (val : list (complex double)) (s s' : multiply_const_generic T) :
  length_invariant vlen s ->
  _set_const ops val s = Returned tt s' ->
  length_invariant vlen s'.
Proof.
  intros [Hv Ho] Hret.
  destruct (decide (length val = length (_val s))) as [Heq | Hne].
  - rewrite _set_const_ok in Hret by exact Heq. injection Hret as <-.
    split; simpl; rewrite ?length_fmap; lia.
  - rewrite _set_const_wrong_length in Hret by exact Hne. discriminate.
Qed.

(** C6. On any instance, [_set_const] with a vector [v] of [vlen] values
    (the length of the Working Constant) returns, and [get_const] then
    returns exactly [v], whatever the native type loses in the conversion. *)
Theorem set_const_get_const_roundtrip {T} (ops : num_ops T)
    (s : multiply_const_generic T) (v : list (complex double)) :
  length v = length (_val s) ->
  exists s',
    _set_const ops v s = Returned tt s' /\
    get_const s' = Returned v s'.
Proof.
  intros Hlen. eexists. split.
  - apply _set_const_ok. exact Hlen.
  - reflexivity.
Qed.

Lemma set_const_get_const_roundtrip_witness :
  let s := @constructed volk_portable _ (ops_of s8) [3; 5] None in
  let v := [cdouble 1000 1; cdouble (-7) 2] in
  exists s',
    _set_const (ops_of s8) v s = Returned tt s' /\
    get_const s' = Returned v s'.
Proof.
  intros s v.
  apply (set_const_get_const_roundtrip (ops_of s8) s v).
  reflexivity.
Defined.

(** ** Scalar kernel *)

(** C4. With a Working Constant of one element, the loop of the fast path
    and the modulo-indexed loop of the general case give the same result
    on every output buffer, input buffer and element count: the same
    output where both are defined, and undefined on the same inputs. *)
Theorem fast_path_is_general_case {T} (ops : num_ops T) (v : T)
    (inp : list T) (n_nums : Z) (out : list T) :
  fast_path ops v inp n_nums out = general_case ops [v] inp n_nums out.
Proof. apply fast_path_general. Qed.

Lemma adapter_none `{VolkLib} (t : native_type) :
  accelerated t = false -> adapter t = None.
Proof. destruct t; simpl; intros Hacc; (reflexivity || discriminate). Qed.

(** C3. On an instance of a native type without an accelerated kernel
    (no adapter bound), whatever its Working Constant and its length
    [vlen], [work] on [noutput_items] groups, with buffers of at least
    [noutput_items * vlen] elements, returns with the output buffer
    holding at every flattened index [k] below [noutput_items * vlen] the
    product of [input[k]] and the Working Constant at [k mod vlen]. *)
Theorem scalar_path_correct `{VolkLib} (t : native_type) (vlen : nat)
    (s : multiply_const_generic (elem t)) (noutput_items : Z)
    (inp out : list (elem t)) :
  accelerated t = false ->
  _volk_work s = adapter t ->
  length (_val s) = vlen ->
  0 <= noutput_items ->
  noutput_items * Z.of_nat vlen < 2 ^ 64 ->
  noutput_items * Z.of_nat vlen <= Cxx.size inp ->
  noutput_items * Z.of_nat vlen <= Cxx.size out ->
  exists out',
    work (ops_of t) noutput_items [inp] [out] s =
      Returned ([out'], noutput_items) s /\
    length out' = length out /\
    forall k, (k < Z.to_nat (noutput_items * Z.of_nat vlen))%nat ->
      exists x c,
        inp !! k = Some x /\
        _val s !! (k mod vlen)%nat = Some c /\
        out' !! k = Some (num_mul (ops_of t) x c).
Proof.
  intros Hacc Hw Hlen Hn Hfit Hinp Hout.
  rewrite adapter_none in Hw by exact Hacc.
  assert (Hsize : Cxx.size (_val s) = Z.of_nat vlen).
  { unfold Cxx.size. rewrite Hlen. reflexivity. }
  destruct (work_scalar (ops_of t) s noutput_items inp out)
    as (out' & Hrun & Hl & Hmul & _); rewrite ?Hsize; try assumption.
  exists out'. rewrite Hsize, Hlen in Hmul. auto.
Qed.

Lemma scalar_path_correct_witness :
  let s := @constructed volk_portable _ (ops_of s16) [3; 5] None in
  exists out',
    work (ops_of s16) 3 [[1; 1; 2; 2; 3; 3]] [[0; 0; 0; 0; 0; 0]] s =
      Returned ([out'], 3) s /\
    length out' = 6%nat /\
    forall k, (k < 6)%nat ->
      exists x c,
        [1; 1; 2; 2; 3; 3] !! k = Some x /\
        _val s !! (k mod 2)%nat = Some c /\
        out' !! k = Some (num_mul (ops_of s16) x c).
Proof.
  intros s.
  apply (@scalar_path_correct volk_portable s16 2 s 3
           [1; 1; 2; 2; 3; 3] [0; 0; 0; 0; 0; 0]).
  - reflexivity.
  - reflexivity.
  - reflexivity.
  - lia.
  - reflexivity.
  - vm_compute. discriminate.
  - vm_compute. discriminate.
Defined.

(** ** Operator core *)

(** C9. [work] changes nothing of the object: whenever it returns, the
    object is the one it was called on, with the same Constant Vector,
    Working Constant and bound kernel, the returned count is
    [noutput_items], and [get_const] gives what it gave before. It never
    ends in an exception; where the buffers are too small its behaviour
    is undefined. *)
Theorem work_has_no_side_effect {T} (ops : num_ops T)
    (s : multiply_const_generic T) (noutput_items : Z)
    (input_items output_items : gr_vector_void_star T) :
  throws (work ops noutput_items input_items output_items s) = false /\
  (work ops noutput_items input_items output_items s = Undefined \/
   exists outs,
     work ops noutput_items input_items output_items s =
       Returned (outs, noutput_items) s /\
     bind (work ops noutput_items input_items output_items)
          (fun _ => get_const) s = get_const s).
Proof.
  destruct (work_outcome ops s noutput_items input_items output_items)
    as [Hu | [outs Hr]].
  - rewrite Hu. split; [reflexivity | left; reflexivity].
  - split; [rewrite Hr; reflexivity |].
    right. exists outs. split; [exact Hr |].
    unfold bind. rewrite Hr. reflexivity.
Qed.

(** C7. Every factory gives an instance. It binds an adapter exactly
    for complex-float32 and float32, and exactly then it declares an
    output multiple, which is the larger of 1 and the alignment in bytes
    divided by the size of an element; otherwise no output multiple is
    declared. The alignment is taken to fit an [int]. *)
Theorem factory_output_multiple `{VolkLib} (t : native_type) (vec : list (elem t)) :
  0 <= volk_get_alignment < 2 ^ 31 ->
  exists s,
    make t vec = Returned tt s /\
    (bound (_volk_work s) = true <-> t = fc32 \/ t = f32) /\
    output_multiple (block s) =
      if bound (_volk_work s)
      then Some (Z.max 1 (volk_get_alignment / num_sizeof (ops_of t)))
      else None.
Proof.
  intros Halign.
  exists (constructed (ops_of t) vec (adapter t)). split.
  { rewrite make_constructor. apply constructor_ok. }
  split.
  { simpl. destruct t; simpl; split; intros Hb; try discriminate;
      try reflexivity; auto; destruct Hb; discriminate. }
  unfold constructed. cbn [block output_multiple _volk_work].
  destruct (adapter t); cbn [bound]; [| reflexivity].
  rewrite alignment_multiple_exact; [reflexivity | exact Halign |].
  apply sizeof_range.
Qed.

Lemma factory_output_multiple_witness :
  exists s,
    @make volk_portable fc32 [Complex (Binary32.of_Z 0) (Binary32.of_Z 1)] =
      Returned tt s /\
    (bound (_volk_work s) = true <-> fc32 = fc32 \/ fc32 = f32) /\
    output_multiple (block s) =
      if bound (_volk_work s) then Some (Z.max 1 (16 / 8)) else None.
Proof.
  apply (@factory_output_multiple volk_portable fc32
           [Complex (Binary32.of_Z 0) (Binary32.of_Z 1)]).
  simpl. lia.
Defined.

(** C5. On every instance, accelerated or not, [work] on
    [noutput_items] groups with buffers of at least
    [noutput_items * vlen] elements returns exactly [noutput_items]. The
    VOLK kernels are taken to meet their specification, and an instance
    has at least one constant. *)
Theorem work_returns_noutput_items `{VolkLib} (t : native_type) (vlen : nat)
    (s : multiply_const_generic (elem t)) (noutput_items : Z)
    (inp out : list (elem t)) :
  volk_spec ->
  reachable t vlen s ->
  (1 <= vlen)%nat ->
  0 <= noutput_items ->
  noutput_items * Z.of_nat vlen < 2 ^ 64 ->
  noutput_items * Z.of_nat vlen <= Cxx.size inp ->
  noutput_items * Z.of_nat vlen <= Cxx.size out ->
  exists outs,
    work (ops_of t) noutput_items [inp] [out] s =
      Returned (outs, noutput_items) s.
Proof.
  intros Hspec Hreach Hvlen Hn Hfit Hinp Hout.
  destruct (reachable_fixed t vlen s Hreach) as [Hw Hlen].
  assert (Hsize : Cxx.size (_val s) = Z.of_nat vlen).
  { unfold Cxx.size. rewrite Hlen. reflexivity. }
  destruct (accelerated t) eqn:Hacc.
  - destruct (_val s) as [| v0 rest] eqn:Hv; [simpl in Hlen; lia |].
    eexists. rewrite <- Hv in Hsize.
    apply (work_accelerated t s noutput_items inp out v0 rest);
      rewrite ?Hsize; assumption.
  - rewrite adapter_none in Hw by exact Hacc.
    destruct (work_scalar (ops_of t) s noutput_items inp out)
      as (out' & Hrun & _); rewrite ?Hsize; try assumption.
    eauto.
Qed.

Lemma work_returns_noutput_items_witness :
  let two := Binary32.of_Z 2 in
  let s := @constructed volk_portable _ (ops_of f32) [two]
             (@adapter volk_portable f32) in
  exists outs,
    work (ops_of f32) 4 [map Binary32.of_Z [1; 2; 3; 4]]
                        [map Binary32.of_Z [0; 0; 0; 0]] s =
      Returned (outs, 4) s.
Proof.
  intros two s.
  apply (@work_returns_noutput_items volk_portable f32 1 s 4).
  - apply volk_portable_spec.
  - apply (@reachable_make volk_portable f32 1 [two]); reflexivity.
  - lia.
  - lia.
  - reflexivity.
  - vm_compute. discriminate.
  - vm_compute. discriminate.
Defined.

(** ** Accelerated kernel adapters *)

(** C10. On a complex-float32 or float32 instance of any vector length,
    [work] calls the bound adapter with the element count
    [noutput_items * vlen] and the adapter reads the constant at position
    0 only: every flattened output element is the input element times
    that constant, and an instance that differs in the other constants
    gives the same output. The VOLK kernels are taken to meet their
    specification, and the element count to fit an [int]. *)
Theorem accelerated_uses_first_constant_only `{VolkLib} (t : native_type)
    (vlen : nat) (s : multiply_const_generic (elem t)) (noutput_items : Z)
    (inp out : list (elem t)) (v0 : elem t) (rest : list (elem t)) :
  volk_spec ->
  accelerated t = true ->
  reachable t vlen s ->
  _val s = v0 :: rest ->
  0 <= noutput_items ->
  noutput_items * Z.of_nat vlen < 2 ^ 31 ->
  noutput_items * Z.of_nat vlen <= Cxx.size inp ->
  noutput_items * Z.of_nat vlen <= Cxx.size out ->
  exists f out',
    adapter t = Some f /\
    f (noutput_items * Z.of_nat vlen) [inp] [out] (_val s) =
      Some ([out'], noutput_items * Z.of_nat vlen) /\
    work (ops_of t) noutput_items [inp] [out] s =
      Returned ([out'], noutput_items) s /\
    length out' = length out /\
    (forall k, (k < Z.to_nat (noutput_items * Z.of_nat vlen))%nat ->
       exists x, inp !! k = Some x /\
                 out' !! k = Some (num_mul (ops_of t) x v0)) /\
    (forall s2 rest2,
       reachable t vlen s2 ->
       _val s2 = v0 :: rest2 ->
       work (ops_of t) noutput_items [inp] [out] s2 =
         Returned ([out'], noutput_items) s2).
Proof.
  intros Hspec Hacc Hreach Hv Hn Hfit Hinp Hout.
  destruct (reachable_fixed t vlen s Hreach) as [Hw Hlen].
  assert (Hsize : forall s' : multiply_const_generic (elem t),
            length (_val s') = vlen -> Cxx.size (_val s') = Z.of_nat vlen).
  { intros s' Hl. unfold Cxx.size. rewrite Hl. reflexivity. }
  set (total := noutput_items * Z.of_nat vlen) in *.
  assert (Htotal : 0 <= total) by (unfold total; lia).
  assert (Hun : Cxx.to_unsigned total = total).
  { unfold Cxx.to_unsigned. apply Z.mod_small. lia. }
  destruct (adapter t) as [f |] eqn:Hf.
  2:{ destruct t; simpl in *; discriminate. }
  exists f. eexists. split; [reflexivity |].
  split.
  { rewrite Hv. rewrite (adapter_run t f total inp out v0 rest Hspec Hf);
      rewrite Hun; try assumption. reflexivity. }
  assert (Hwork : forall s2 rest2, reachable t vlen s2 -> _val s2 = v0 :: rest2 ->
            work (ops_of t) noutput_items [inp] [out] s2 =
            Returned ([((fun x => num_mul (ops_of t) x v0) <$>
                          take (Z.to_nat total) inp)
                        ++ drop (Z.to_nat total) out], noutput_items) s2).
  { intros s2 rest2 Hr2 Hv2.
    destruct (reachable_fixed t vlen s2 Hr2) as [Hw2 Hlen2].
    pose proof (work_accelerated t s2 noutput_items inp out v0 rest2
                  Hspec Hacc) as Hrun.
    rewrite (Hsize s2 Hlen2) in Hrun. fold total in Hrun.
    rewrite (Z.mod_small total) in Hrun by lia.
    apply Hrun; try assumption. lia. }
  split; [apply (Hwork s rest Hreach Hv) |].
  destruct (broadcast_lookup (num_mul (ops_of t)) v0 (Z.to_nat total) inp out)
    as (Hl & Hk & _).
  { unfold Cxx.size in Hinp. lia. }
  { unfold Cxx.size in Hout. lia. }
  split; [exact Hl |]. split; [exact Hk |]. exact Hwork.
Qed.

Lemma accelerated_uses_first_constant_only_witness :
  let c := fun z => Complex (Binary32.of_Z z) (Binary32.of_Z 0) in
  let s := @constructed volk_portable _ (ops_of fc32) [c 2; c 3]
             (@adapter volk_portable fc32) in
  let inp := [c 1; c 1; c 1; c 1] in
  let out := [c 0; c 0; c 0; c 0] in
  exists f out',
    @adapter volk_portable fc32 = Some f /\
    f (2 * Z.of_nat 2) [inp] [out] (_val s) = Some ([out'], 2 * Z.of_nat 2) /\
    work (ops_of fc32) 2 [inp] [out] s = Returned ([out'], 2) s /\
    length out' = length out /\
    (forall k, (k < Z.to_nat (2 * Z.of_nat 2))%nat ->
       exists x, inp !! k = Some x /\
                 out' !! k = Some (num_mul (ops_of fc32) x (c 2))) /\
    (forall s2 rest2,
       @reachable volk_portable fc32 2 s2 ->
       _val s2 = c 2 :: rest2 ->
       work (ops_of fc32) 2 [inp] [out] s2 = Returned ([out'], 2) s2).
Proof.
  intros c s inp out.
  apply (@accelerated_uses_first_constant_only volk_portable fc32 2 s 2
           inp out (c 2) [c 3]).
  - apply volk_portable_spec.
  - reflexivity.
  - apply (@reachable_make volk_portable fc32 2 [c 2; c 3]); reflexivity.
  - reflexivity.
  - lia.
  - reflexivity.
  - vm_compute. discriminate.
  - vm_compute. discriminate.
Defined.

(** * Further properties of the block *)

(** ** What [work] depends on *)

(** [work] looks at the Working Constant and at the bound kernel, and at
    nothing else of the object. *)
Lemma work_depends {T} (ops : num_ops T) (s1 s2 : multiply_const_generic T)
    (n : Z) (input_items output_items : gr_vector_void_star T) :
  _val s1 = _val s2 ->
  _volk_work s1 = _volk_work s2 ->
  result_of (work ops n input_items output_items s1) =
  result_of (work ops n input_items output_items s2).
Proof.
  intros Hv Hw. unfold work, bind, gets, defined, ret. rewrite Hv, Hw.
  destruct (_volk_work s2) as [f |].
  - destruct (f _ input_items output_items (_val s2)); reflexivity.
  - destruct (output_items !! 0%nat); simpl; [| reflexivity].
    destruct (input_items !! 0%nat); simpl; [| reflexivity].
    case_decide.
    + destruct (load (_val s2) 0); simpl; [| reflexivity].
      destruct (fast_path _ _ _ _); reflexivity.
    + destruct (general_case _ _ _ _); reflexivity.
Qed.

(** The output of a run is fixed by what [multiplied] says of it. *)
Lemma multiplied_unique {T} (ops : num_ops T) (v : list T) (count : nat)
    (inp out o1 o2 : list T) :
  multiplied ops v count inp out o1 ->
  multiplied ops v count inp out o2 ->
  o1 = o2.
Proof.
  intros (_ & Hk1 & Hr1) (_ & Hk2 & Hr2). apply list_eq. intros k.
  destruct (decide (k < count)%nat) as [Hlt | Hge].
  - destruct (Hk1 k Hlt) as (x1 & c1 & Hx1 & Hc1 & ->).
    destruct (Hk2 k Hlt) as (x2 & c2 & Hx2 & Hc2 & ->).
    congruence.
  - rewrite Hr1, Hr2 by lia. reflexivity.
Qed.

(** A loop stops in undefined behaviour at the first round whose body
    has no defined result, whatever the rounds before did. *)
Lemma for_loop_fails {St} (P : St -> Prop) (body : nat -> St -> option St) :
  forall count i j s,
    (forall k o o', P o -> body k o = Some o' -> P o') ->
    (forall o, P o -> body (i + j)%nat o = None) ->
    (j < count)%nat ->
    P s ->
    for_loop body i count s = None.
Proof.
  induction count as [| count IH]; intros i j s Hkeep Hfail Hj HP; [lia |].
  simpl. destruct (body i s) as [s' |] eqn:Hb; [| reflexivity].
  destruct j as [| j].
  - rewrite Nat.add_0_r in Hfail. rewrite Hfail in Hb by exact HP. discriminate.
  - apply (IH (S i) j s'); try assumption.
    + intros o Ho. replace (S i + j)%nat with (i + S j)%nat by lia.
      apply Hfail. exact Ho.
    + lia.
    + eapply Hkeep; eassumption.
Qed.

Lemma store_length {A} (p p' : list A) i x :
  store p i x = Some p' -> length p' = length p.
Proof.
  unfold store. case_decide; [| discriminate].
  intros [= <-]. apply length_insert.
Qed.

Lemma store_None {A} (p : list A) i x :
  (length p <= i)%nat -> store p i x = None.
Proof. intros Hi. unfold store. case_decide; [lia | reflexivity]. Qed.

(** The general loop runs past the end of a buffer that is shorter than
    the run. *)
Lemma general_case_short {T} (ops : num_ops T) (v inp : list T) (n_nums : Z)
    (out : list T) :
  Cxx.size inp < n_nums \/ Cxx.size out < n_nums ->
  general_case ops v inp n_nums out = None.
Proof.
  unfold Cxx.size. intros Hshort. unfold general_case.
  apply (for_loop_fails (fun o => length o = length out) _ _ 0%nat
           (Nat.min (length inp) (length out))).
  - intros k o o' Ho Hb.
    destruct (load inp k); simpl in Hb; [| discriminate].
    destruct (load v (k mod length v)%nat); simpl in Hb; [| discriminate].
    apply store_length in Hb. lia.
  - intros o Ho. rewrite Nat.add_0_l.
    destruct (decide (length inp <= length out)%nat) as [Hle | Hgt].
    + rewrite Nat.min_l by exact Hle.
      assert (Hnone : load inp (length inp) = None).
      { apply lookup_ge_None_2. lia. }
      rewrite Hnone. reflexivity.
    + rewrite Nat.min_r by lia.
      destruct (load inp (length out)); simpl; [| reflexivity].
      destruct (load v _); simpl; [| reflexivity].
      apply store_None. lia.
  - lia.
  - reflexivity.
Qed.

(** ** Replacing the constants *)

(** X1. A [_set_const] with as many values as the Working Constant has
    returns, and afterwards the Constant Vector is the given vector and
    the Working Constant is its conversion, position by position; the
    vector length, the bound kernel and what was declared to the scheduler
    are as before. *)
Theorem set_const_installs_converted_constants {T} (ops : num_ops T)
    (s : multiply_const_generic T) (v : list (complex double)) :
  length v = length (_val s) ->
  exists s',
    _set_const ops v s = Returned tt s' /\
    _original_val s' = v /\
    (forall i, _val s' !! i = gr_complex_double_to_num ops <$> v !! i) /\
    length (_val s') = length (_val s) /\
    _volk_work s' = _volk_work s /\
    block s' = block s.
Proof.
  intros Hlen. eexists. split; [apply _set_const_ok; exact Hlen |].
  simpl. repeat split.
  - intros i. apply list_lookup_fmap.
  - rewrite length_fmap. exact Hlen.
Qed.

Lemma set_const_installs_converted_constants_witness :
  let s := @constructed volk_portable _ (ops_of s8) [3; 5] None in
  let v := [cdouble 1000 1; cdouble (-7) 2] in
  exists s',
    _set_const (ops_of s8) v s = Returned tt s' /\
    _original_val s' = v /\
    (forall i, _val s' !! i = gr_complex_double_to_num (ops_of s8) <$> v !! i) /\
    length (_val s') = length (_val s) /\
    _volk_work s' = _volk_work s /\
    block s' = block s.
Proof.
  intros s v.
  apply (set_const_installs_converted_constants (ops_of s8) s v).
  reflexivity.
Defined.

(** X2. A [_set_const] with a vector of another length throws
    [invalid_argument] and leaves the Working Constant alone, so that every
    later [work] gives what it would have given without the failed call. *)
Theorem failed_set_const_keeps_work {T} (ops : num_ops T)
    (s : multiply_const_generic T) (v : list (complex double)) (n : Z)
    (input_items output_items : gr_vector_void_star T) :
  length v <> length (_val s) ->
  exists s',
    _set_const ops v s =
      Thrown (invalid_argument "set_const called with the wrong length") s' /\
    _val s' = _val s /\
    _volk_work s' = _volk_work s /\
    result_of (work ops n input_items output_items s') =
    result_of (work ops n input_items output_items s).
Proof.
  intros Hlen. eexists. split; [apply _set_const_wrong_length; exact Hlen |].
  split; [reflexivity |]. split; [reflexivity |].
  apply work_depends; reflexivity.
Qed.

Lemma failed_set_const_keeps_work_witness :
  let s := @constructed volk_portable _ (ops_of s16) [3; 5] None in
  let v := [cdouble 1 0; cdouble 2 0; cdouble 3 0] in
  exists s',
    _set_const (ops_of s16) v s =
      Thrown (invalid_argument "set_const called with the wrong length") s' /\
    _val s' = _val s /\
    _volk_work s' = _volk_work s /\
    result_of (work (ops_of s16) 1 [[7; 7]] [[0; 0]] s') =
    result_of (work (ops_of s16) 1 [[7; 7]] [[0; 0]] s).
Proof.
  intros s v.
  apply (failed_set_const_keeps_work (ops_of s16) s v 1 [[7; 7]] [[0; 0]]).
  simpl. lia.
Defined.

(** X3. The last accepted vector wins: after any earlier [_set_const],
    accepted or rejected, a [_set_const] with a vector of the right length
    leaves the instance exactly as if the earlier call had not been made,
    with both constant vectors of that length again. *)
Theorem set_const_last_write_wins {T} (ops : num_ops T)
    (s s1 : multiply_const_generic T) (v0 v : list (complex double)) :
  state_after (_set_const ops v0 s) = Some s1 ->
  length v = length (_val s) ->
  exists s',
    _set_const ops v s1 = Returned tt s' /\
    _set_const ops v s = Returned tt s' /\
    length_invariant (length (_val s)) s'.
Proof.
  intros Hfirst Hlen.
  exists (with_val (gr_complex_double_to_num ops <$> v) (with_original_val v s)).
  assert (Hs1 : with_val (gr_complex_double_to_num ops <$> v)
                  (with_original_val v s1) =
                with_val (gr_complex_double_to_num ops <$> v)
                  (with_original_val v s) /\
                length (_val s1) = length (_val s)).
  { destruct (decide (length v0 = length (_val s))) as [Heq | Hne].
    - rewrite _set_const_ok in Hfirst by exact Heq.
      injection Hfirst as <-. simpl. rewrite length_fmap. auto.
    - rewrite _set_const_wrong_length in Hfirst by exact Hne.
      injection Hfirst as <-. auto. }
  destruct Hs1 as [Hsame Hl1].
  split; [rewrite <- Hsame; apply _set_const_ok; lia |].
  split; [apply _set_const_ok; exact Hlen |].
  split; simpl; rewrite ?length_fmap; lia.
Qed.

Lemma set_const_last_write_wins_witness :
  let s := @constructed volk_portable _ (ops_of s16) [3; 5] None in
  let v0 := [cdouble 1 0; cdouble 2 0; cdouble 3 0] in
  let v := [cdouble 4 0; cdouble 6 0] in
  exists s',
    _set_const (ops_of s16) v (with_original_val v0 s) = Returned tt s' /\
    _set_const (ops_of s16) v s = Returned tt s' /\
    length_invariant (length (_val s)) s'.
Proof.
  intros s v0 v.
  apply (set_const_last_write_wins (ops_of s16) s (with_original_val v0 s) v0 v).
  - reflexivity.
  - reflexivity.
Defined.

(** X4. New constants take effect on the next [work]: on an instance
    without adapter, after an accepted [_set_const v] the output element
    at flattened index [k] is the input element times the conversion of
    [v] at [k mod vlen]. *)
Theorem set_const_then_work {T} (ops : num_ops T)
    (s : multiply_const_generic T) (v : list (complex double))
    (noutput_items : Z) (inp out : list T) :
  _volk_work s = None ->
  length v = length (_val s) ->
  0 <= noutput_items ->
  noutput_items * Cxx.size v < 2 ^ 64 ->
  noutput_items * Cxx.size v <= Cxx.size inp ->
  noutput_items * Cxx.size v <= Cxx.size out ->
  exists s' out',
    _set_const ops v s = Returned tt s' /\
    work ops noutput_items [inp] [out] s' =
      Returned ([out'], noutput_items) s' /\
    forall k, (k < Z.to_nat (noutput_items * Cxx.size v))%nat ->
      exists x c,
        inp !! k = Some x /\
        v !! (k mod length v)%nat = Some c /\
        out' !! k = Some (num_mul ops x (gr_complex_double_to_num ops c)).
Proof.
  intros Hw Hlen Hn Hfit Hinp Hout.
  set (s' := with_val (gr_complex_double_to_num ops <$> v)
               (with_original_val v s)).
  assert (Hsize : Cxx.size (_val s') = Cxx.size v).
  { unfold Cxx.size. simpl. rewrite length_fmap. reflexivity. }
  destruct (work_scalar ops s' noutput_items inp out)
    as (out' & Hrun & _ & Hmul & _); rewrite ?Hsize; try assumption.
  exists s', out'. split; [apply _set_const_ok; exact Hlen |].
  split; [exact Hrun |].
  intros k Hk. rewrite Hsize in Hmul.
  destruct (Hmul k Hk) as (x & c & Hx & Hc & Ho).
  simpl in Hc. rewrite length_fmap, list_lookup_fmap in Hc.
  destruct (v !! (k mod length v)%nat) as [c0 |]; simpl in Hc; [| discriminate].
  injection Hc as <-. exists x, c0. auto.
Qed.

Lemma set_const_then_work_witness :
  let s := @constructed volk_portable _ (ops_of s16) [3; 5] None in
  let v := [cdouble 4 0; cdouble 6 0] in
  exists s' out',
    _set_const (ops_of s16) v s = Returned tt s' /\
    work (ops_of s16) 2 [[1; 1; 2; 2]] [[0; 0; 0; 0]] s' =
      Returned ([out'], 2) s' /\
    forall k, (k < Z.to_nat (2 * Cxx.size v))%nat ->
      exists x c,
        [1; 1; 2; 2] !! k = Some x /\
        v !! (k mod length v)%nat = Some c /\
        out' !! k = Some (num_mul (ops_of s16) x
                            (gr_complex_double_to_num (ops_of s16) c)).
Proof.
  intros s v.
  apply (set_const_then_work (ops_of s16) s v 2 [1; 1; 2; 2] [0; 0; 0; 0]).
  - reflexivity.
  - reflexivity.
  - lia.
  - reflexivity.
  - vm_compute. discriminate.
  - vm_compute. discriminate.
Defined.

(** ** The life of an instance *)

Lemma constructed_block_length `{VolkLib} {T} (ops : num_ops T)
    (vec vec' : list T) (volk_work : option (volk_work_type T)) :
  length vec = length vec' ->
  block (constructed ops vec volk_work) = block (constructed ops vec' volk_work).
Proof.
  intros Hlen. unfold constructed, Cxx.size. rewrite Hlen. reflexivity.
Qed.

(** X5. Whatever a client does with an instance after the factory made
    it, calls of [_set_const] that return or throw, [get_const], [work]:
    the bound kernel is the one of its native type, the Working Constant
    has [vlen] elements, and the two io signatures (one stream each, items
    of [sizeof(type) * vlen] bytes) and the declared output multiple are
    those of the construction. *)
Theorem reachable_configuration_fixed `{VolkLib} (t : native_type) (vlen : nat)
    (s : multiply_const_generic (elem t)) :
  reachable t vlen s ->
  let item := Cxx.to_int (Cxx.size_t_mul (num_sizeof (ops_of t)) (Z.of_nat vlen)) in
  _volk_work s = adapter t /\
  bound (_volk_work s) = accelerated t /\
  length (_val s) = vlen /\
  input_signature (block s) = gr_make_io_signature 1 1 item /\
  output_signature (block s) = gr_make_io_signature 1 1 item /\
  output_multiple (block s) =
    if accelerated t
    then Some (Z.max 1 (Cxx.to_int (Cxx.size_t_div volk_get_alignment
                                      (num_sizeof (ops_of t)))))
    else None.
Proof.
  intros Hreach item.
  assert (Hinv : _volk_work s = adapter t /\ length (_val s) = vlen /\
                 block s = block (constructed (ops_of t)
                                    (replicate vlen (num_zero (ops_of t)))
                                    (adapter t))).
  { induction Hreach as [vec s Hlen Hmake | val s s' _ IH Hstep
                         | s s' _ IH Hstep | n ii oo s s' _ IH Hstep].
    - rewrite make_constructor, constructor_ok in Hmake.
      injection Hmake as <-. split; [reflexivity |].
      split; [simpl; rewrite !length_fmap; exact Hlen |].
      apply constructed_block_length. rewrite length_replicate. exact Hlen.
    - destruct (_set_const_keeps _ _ _ _ Hstep) as (Hl & Hw & Hb).
      rewrite Hl, Hw, Hb. exact IH.
    - simpl in Hstep. injection Hstep as <-. exact IH.
    - destruct (work_outcome (ops_of t) s n ii oo) as [Hu | [outs Hr]];
        rewrite ?Hu, ?Hr in Hstep; simpl in Hstep; [discriminate |].
      injection Hstep as <-. exact IH. }
  destruct Hinv as (Hw & Hl & Hb).
  split; [exact Hw |].
  split; [rewrite Hw; apply bound_adapter |].
  split; [exact Hl |].
  rewrite Hb. unfold constructed, item, Cxx.size. simpl.
  rewrite length_replicate.
  repeat split; try reflexivity.
  destruct t; reflexivity.
Qed.

Lemma reachable_configuration_fixed_witness :
  let s := @constructed volk_portable _ (ops_of s16) [3; 5] None in
  let v := [cdouble 1 0; cdouble 2 0; cdouble 3 0] in
  let s' := with_original_val v s in
  _volk_work s' = @adapter volk_portable s16 /\
  bound (_volk_work s') = accelerated s16 /\
  length (_val s') = 2%nat /\
  input_signature (block s') = gr_make_io_signature 1 1 4 /\
  output_signature (block s') = gr_make_io_signature 1 1 4 /\
  output_multiple (block s') = None.
Proof.
  intros s v s'.
  apply (@reachable_configuration_fixed volk_portable s16 2 s').
  apply (@reachable_set_const volk_portable s16 2 v s).
  - apply (@reachable_make volk_portable s16 2 [3; 5]); reflexivity.
  - reflexivity.
Defined.

(** ** [work] and its buffers *)

(** X6. On every instance, accelerated or not, [work] keeps the length of
    the output buffer and leaves every element from index
    [noutput_items * vlen] on as it was. The VOLK kernels are taken to
    meet their specification. *)
Theorem work_writes_only_the_run `{VolkLib} (t : native_type) (vlen : nat)
    (s : multiply_const_generic (elem t)) (noutput_items : Z)
    (inp out : list (elem t)) :
  volk_spec ->
  reachable t vlen s ->
  (1 <= vlen)%nat ->
  0 <= noutput_items ->
  noutput_items * Z.of_nat vlen < 2 ^ 64 ->
  noutput_items * Z.of_nat vlen <= Cxx.size inp ->
  noutput_items * Z.of_nat vlen <= Cxx.size out ->
  exists out',
    work (ops_of t) noutput_items [inp] [out] s =
      Returned ([out'], noutput_items) s /\
    length out' = length out /\
    forall k, (Z.to_nat (noutput_items * Z.of_nat vlen) <= k)%nat ->
      out' !! k = out !! k.
Proof.
  intros Hspec Hreach Hvlen Hn Hfit Hinp Hout.
  destruct (reachable_fixed t vlen s Hreach) as [Hw Hlen].
  assert (Hsize : Cxx.size (_val s) = Z.of_nat vlen).
  { unfold Cxx.size. rewrite Hlen. reflexivity. }
  destruct (accelerated t) eqn:Hacc.
  - destruct (_val s) as [| v0 rest] eqn:Hv; [simpl in Hlen; lia |].
    rewrite <- Hv in Hsize.
    pose proof (work_accelerated t s noutput_items inp out v0 rest
                  Hspec Hacc Hw Hv Hn) as Hrun.
    rewrite Hsize in Hrun. cbv zeta in Hrun.
    assert (Hm : 0 <= (noutput_items * Z.of_nat vlen) mod 2 ^ 32
                 <= noutput_items * Z.of_nat vlen).
    { split; [apply Z.mod_pos_bound; lia | apply Z.mod_le; lia]. }
    unfold Cxx.size in Hinp, Hout.
    destruct (broadcast_lookup (num_mul (ops_of t)) v0
                (Z.to_nat ((noutput_items * Z.of_nat vlen) mod 2 ^ 32)) inp out)
      as (Hl & _ & Hrest); try lia.
    eexists. split; [apply Hrun; unfold Cxx.size; lia |].
    split; [exact Hl |].
    intros k Hk. apply Hrest. lia.
  - rewrite adapter_none in Hw by exact Hacc.
    destruct (work_scalar (ops_of t) s noutput_items inp out)
      as (out' & Hrun & Hl & _ & Hrest); rewrite ?Hsize; try assumption.
    exists out'. rewrite Hsize in Hrest. auto.
Qed.

Lemma work_writes_only_the_run_witness :
  let s := @constructed volk_portable _ (ops_of s16) [3; 5] None in
  exists out',
    work (ops_of s16) 1 [[1; 1; 2]] [[0; 0; 7; 8]] s = Returned ([out'], 1) s /\
    length out' = 4%nat /\
    forall k, (2 <= k)%nat -> out' !! k = [0; 0; 7; 8] !! k.
Proof.
  intros s.
  apply (@work_writes_only_the_run volk_portable s16 2 s 1 [1; 1; 2] [0; 0; 7; 8]).
  - apply volk_portable_spec.
  - apply (@reachable_make volk_portable s16 2 [3; 5]); reflexivity.
  - lia.
  - lia.
  - reflexivity.
  - vm_compute. discriminate.
  - vm_compute. discriminate.
Defined.

(** X7. The scalar loops check nothing: when the input or the output
    buffer holds fewer elements than the count [work] computes in
    [size_t], the loop runs past its end and the behaviour is undefined. *)
Theorem work_past_short_buffer {T} (ops : num_ops T)
    (s : multiply_const_generic T) (noutput_items : Z) (inp out : list T) :
  _volk_work s = None ->
  Cxx.size inp < Cxx.size_t_mul noutput_items (Cxx.size (_val s)) \/
  Cxx.size out < Cxx.size_t_mul noutput_items (Cxx.size (_val s)) ->
  work ops noutput_items [inp] [out] s = Undefined.
Proof.
  intros Hw Hshort. unfold work, bind, gets, defined, ret. rewrite Hw. simpl.
  case_decide as Hone.
  - destruct (_val s) as [| v [| ? ?]] eqn:Hv;
      unfold Cxx.size in Hone; simpl in Hone; try lia.
    simpl. rewrite fast_path_general, general_case_short by exact Hshort.
    reflexivity.
  - rewrite general_case_short by exact Hshort. reflexivity.
Qed.

Lemma work_past_short_buffer_witness :
  let s := @constructed volk_portable _ (ops_of s16) [3; 5] None in
  work (ops_of s16) 3 [[1; 1; 2; 2; 3; 3]] [[0; 0; 0; 0]] s = Undefined.
Proof.
  intros s.
  apply (work_past_short_buffer (ops_of s16) s 3 [1; 1; 2; 2; 3; 3] [0; 0; 0; 0]).
  - reflexivity.
  - right. reflexivity.
Defined.

(** X8. With nothing to do, zero items or an empty Working Constant,
    [work] without adapter returns at once and leaves the output buffer
    as it is, whatever the size of the buffers. *)
Theorem work_nothing_to_do {T} (ops : num_ops T)
    (s : multiply_const_generic T) (noutput_items : Z) (inp out : list T) :
  _volk_work s = None ->
  noutput_items = 0 \/ _val s = [] ->
  work ops noutput_items [inp] [out] s = Returned ([out], noutput_items) s.
Proof.
  intros Hw Hzero.
  assert (Hmul : Cxx.size_t_mul noutput_items (Cxx.size (_val s)) = 0).
  { unfold Cxx.size_t_mul, Cxx.to_size_t.
    destruct Hzero as [Hz | Hz]; rewrite Hz.
    - reflexivity.
    - unfold Cxx.size. simpl length. change (Z.of_nat 0) with 0.
      rewrite Zmod_0_l, Z.mul_0_r. reflexivity. }
  unfold work, bind, gets, defined, ret. rewrite Hw. simpl. rewrite Hmul.
  case_decide as Hone.
  - destruct (_val s) as [| v [| ? ?]] eqn:Hv;
      unfold Cxx.size in Hone; simpl in Hone; try lia.
    reflexivity.
  - reflexivity.
Qed.

Lemma work_nothing_to_do_witness :
  let s := @constructed volk_portable _ (ops_of s16) [3; 5] None in
  work (ops_of s16) 0 [[]] [[7; 8]] s = Returned ([[7; 8]], 0) s.
Proof.
  intros s.
  apply (work_nothing_to_do (ops_of s16) s 0 [] [7; 8]).
  - reflexivity.
  - left. reflexivity.
Defined.

(** X9. [work] without adapter reads the first [noutput_items * vlen]
    input elements and no others: two input buffers that agree on them
    give the same output buffer. *)
Theorem work_reads_only_the_run {T} (ops : num_ops T)
    (s : multiply_const_generic T) (noutput_items : Z)
    (inp1 inp2 out : list T) :
  _volk_work s = None ->
  0 <= noutput_items ->
  noutput_items * Cxx.size (_val s) < 2 ^ 64 ->
  noutput_items * Cxx.size (_val s) <= Cxx.size inp1 ->
  noutput_items * Cxx.size (_val s) <= Cxx.size inp2 ->
  noutput_items * Cxx.size (_val s) <= Cxx.size out ->
  take (Z.to_nat (noutput_items * Cxx.size (_val s))) inp1 =
  take (Z.to_nat (noutput_items * Cxx.size (_val s))) inp2 ->
  exists out',
    work ops noutput_items [inp1] [out] s = Returned ([out'], noutput_items) s /\
    work ops noutput_items [inp2] [out] s = Returned ([out'], noutput_items) s.
Proof.
  intros Hw Hn Hfit Hinp1 Hinp2 Hout Hsame.
  destruct (work_scalar ops s noutput_items inp1 out)
    as (o1 & Hrun1 & Hm1); try assumption.
  destruct (work_scalar ops s noutput_items inp2 out)
    as (o2 & Hrun2 & Hm2); try assumption.
  exists o1. split; [exact Hrun1 |].
  rewrite Hrun2. do 3 f_equal.
  apply (multiplied_unique ops (_val s)
           (Z.to_nat (noutput_items * Cxx.size (_val s))) inp1 out);
    [| exact Hm1].
  destruct Hm2 as (Hl & Hk & Hr). split; [exact Hl |]. split; [| exact Hr].
  intros k Hlt. destruct (Hk k Hlt) as (x & c & Hx & Hc & Ho).
  exists x, c. split; [| auto].
  rewrite <- (lookup_take_lt inp1 _ k Hlt), Hsame, lookup_take_lt by exact Hlt.
  exact Hx.
Qed.

Lemma work_reads_only_the_run_witness :
  let s := @constructed volk_portable _ (ops_of s16) [3; 5] None in
  exists out',
    work (ops_of s16) 1 [[1; 2; 100]] [[0; 0; 0]] s = Returned ([out'], 1) s /\
    work (ops_of s16) 1 [[1; 2; -7; 9]] [[0; 0; 0]] s = Returned ([out'], 1) s.
Proof.
  intros s.
  apply (work_reads_only_the_run (ops_of s16) s 1 [1; 2; 100] [1; 2; -7; 9]
           [0; 0; 0]).
  - reflexivity.
  - lia.
  - reflexivity.
  - vm_compute. discriminate.
  - vm_compute. discriminate.
  - vm_compute. discriminate.
  - reflexivity.
Defined.

(** X10. Nothing is carried from one call to the next: without adapter,
    one [work] on [n1 + n2] groups writes what a [work] on [n1] groups
    followed by a [work] on [n2] groups writes, the second call being
    given the two buffers from element [n1 * vlen] on. *)
Theorem work_in_two_calls {T} (ops : num_ops T)
    (s : multiply_const_generic T) (n1 n2 : Z) (inp out : list T) :
  _volk_work s = None ->
  0 <= n1 -> 0 <= n2 ->
  (n1 + n2) * Cxx.size (_val s) < 2 ^ 64 ->
  (n1 + n2) * Cxx.size (_val s) <= Cxx.size inp ->
  (n1 + n2) * Cxx.size (_val s) <= Cxx.size out ->
  let c1 := Z.to_nat (n1 * Cxx.size (_val s)) in
  exists o o1 o2,
    work ops (n1 + n2) [inp] [out] s = Returned ([o], n1 + n2) s /\
    work ops n1 [inp] [out] s = Returned ([o1], n1) s /\
    work ops n2 [drop c1 inp] [drop c1 o1] s = Returned ([o2], n2) s /\
    o = take c1 o1 ++ o2.
Proof.
  intros Hw Hn1 Hn2 Hfit Hinp Hout c1.
  pose proof (size_nonneg (_val s)) as Hsz.
  set (vl := Cxx.size (_val s)) in *.
  assert (Hc1 : Z.of_nat c1 = n1 * vl) by (unfold c1; nia).
  destruct (work_scalar ops s (n1 + n2) inp out) as (o & Hrun & Hm);
    try assumption; try lia.
  destruct (work_scalar ops s n1 inp out) as (o1 & Hrun1 & Hl1 & Hk1 & Hr1);
    try assumption; fold vl; try nia.
  fold vl in Hk1, Hr1. fold c1 in Hk1, Hr1.
  unfold Cxx.size in Hinp, Hout.
  destruct (work_scalar ops s n2 (drop c1 inp) (drop c1 o1))
    as (o2 & Hrun2 & Hl2 & Hk2 & Hr2);
    try assumption; fold vl; unfold Cxx.size; rewrite ?length_drop; try nia.
  fold vl in Hk2, Hr2.
  set (c2 := Z.to_nat (n2 * vl)) in *.
  assert (Hc2 : Z.of_nat c2 = n2 * vl) by (unfold c2; nia).
  exists o, o1, o2. repeat split; try assumption.
  apply (multiplied_unique ops (_val s) (Z.to_nat ((n1 + n2) * vl)) inp out);
    [exact Hm |].
  assert (Htot : Z.to_nat ((n1 + n2) * vl) = (c1 + c2)%nat) by nia.
  rewrite Htot. rewrite length_drop in Hl2.
  assert (Htake : length (take c1 o1) = c1) by (rewrite length_take; lia).
  split; [rewrite length_app, Htake, Hl2; lia |]. split.
  - intros k Hk. destruct (decide (k < c1)%nat) as [Hlt | Hge].
    + destruct (Hk1 k Hlt) as (x & c & Hx & Hc & Ho).
      exists x, c. split; [exact Hx |]. split; [exact Hc |].
      rewrite lookup_app_l, lookup_take_lt by lia. exact Ho.
    + destruct (Hk2 (k - c1)%nat ltac:(lia)) as (x & c & Hx & Hc & Ho).
      rewrite lookup_drop in Hx.
      replace (c1 + (k - c1))%nat with k in Hx by lia.
      exists x, c. split; [exact Hx |]. split.
      * rewrite <- Hc. f_equal.
        assert (Hvl : Z.of_nat (length (_val s)) = vl) by reflexivity.
        assert (Hc1' : c1 = (Z.to_nat n1 * length (_val s))%nat) by nia.
        replace k with ((k - c1) + Z.to_nat n1 * length (_val s))%nat at 1
          by lia.
        apply Nat.Div0.mod_add.
      * rewrite lookup_app_r by lia. rewrite Htake. exact Ho.
  - intros k Hk. rewrite lookup_app_r by lia. rewrite Htake.
    rewrite Hr2 by lia. rewrite lookup_drop.
    replace (c1 + (k - c1))%nat with k by lia.
    apply Hr1. lia.
Qed.

Lemma work_in_two_calls_witness :
  let s := @constructed volk_portable _ (ops_of s16) [3; 5] None in
  exists o o1 o2,
    work (ops_of s16) (1 + 2) [[1; 1; 2; 2; 3; 3]] [[0; 0; 0; 0; 0; 0]] s =
      Returned ([o], 1 + 2) s /\
    work (ops_of s16) 1 [[1; 1; 2; 2; 3; 3]] [[0; 0; 0; 0; 0; 0]] s =
      Returned ([o1], 1) s /\
    work (ops_of s16) 2 [drop 2 [1; 1; 2; 2; 3; 3]] [drop 2 o1] s =
      Returned ([o2], 2) s /\
    o = take 2 o1 ++ o2.
Proof.
  intros s.
  apply (work_in_two_calls (ops_of s16) s 1 2 [1; 1; 2; 2; 3; 3]
           [0; 0; 0; 0; 0; 0]).
  - reflexivity.
  - lia.
  - lia.
  - reflexivity.
  - vm_compute. discriminate.
  - vm_compute. discriminate.
Defined.
